(** * Temperature server: rolling window, periodic publisher, listener loop

    A shallow embedding of [server.c] (the collector of the multi-client
    temperature monitoring system) and the properties of its specification.

    - C [double] is IEEE-754 binary64: Rocq's primitive [float], whose
      operations are the hardware ones (round to nearest, ties to even).
    - C [int] is a 32-bit signed integer: a [Z] with the wrap-around written
      out ([wrap32]); the lemmas show that no operation of the ring ever wraps.
    - The [samples] array is a list updated by index.
    - The two threads are a labelled transition system whose steps are the
      critical sections and the system calls of [main] and [timer_thread]. *)

From Stdlib Require Import ZArith QArith Floats List Lia String Ascii Bool DecimalString.
From Stdlib Require DecimalPos DecimalFacts.
From stdpp Require Import base list.
Import ListNotations.

#[local] Set Warnings "-inexact-float".
#[local] Open Scope Z_scope.

(** ** C scalars *)

(** [int]: two's complement, 32 bits. *)
Definition INT_MIN : Z := - 2 ^ 31.
Definition INT_MAX : Z := 2 ^ 31 - 1.

Definition wrap32 (z : Z) : Z := (z + 2 ^ 31) mod 2 ^ 32 - 2 ^ 31.

Definition int_add (a b : Z) : Z := wrap32 (a + b).
Definition int_sub (a b : Z) : Z := wrap32 (a - b).
(** [%] truncates towards zero. *)
Definition int_rem (a b : Z) : Z := Z.rem a b.

(** [double], and the conversion of an [int] to it (exact: 32 bits fit in
    the 53 of the significand). *)
Abbreviation double := float.

Definition double_of_int (z : Z) : double :=
  if z <? 0 then PrimFloat.opp (PrimFloat.of_uint63 (Uint63.of_Z (- z)))
  else PrimFloat.of_uint63 (Uint63.of_Z z).

(** [a > b] on doubles is [b < a]. *)
Definition double_gt (a b : double) : bool := PrimFloat.ltb b a.

(** ** The circular buffer of [server.c]

    [MAX_SAMPLES] is 1024 in the source; the ring is written over any
    [capacity] so that the specification's three-slot example runs on the
    same definitions. *)

Record circbuf_t : Set := mk_circbuf {
  samples : list double;
  head : Z;
  count : Z
}.

Record stats_t : Set := mk_stats {
  st_avg : double;
  st_min : double;
  st_max : double;
  st_count : Z
}.

(** [samples[i]]; the array is static, so a slot never written holds 0.0. *)
Definition sample_at (b : circbuf_t) (i : Z) : double :=
  default 0%float (samples b !! Z.to_nat i).

Section Ring.

Variable capacity : Z.

(** The static [buffer] before [main] runs: zero-filled storage. *)
Definition buffer_static : circbuf_t :=
  {| samples := replicate (Z.to_nat capacity) 0%float; head := 0; count := 0 |}.

Definition buffer_init (b : circbuf_t) : circbuf_t :=
  {| samples := samples b; head := 0; count := 0 |}.

Definition buffer_push (b : circbuf_t) (val : double) : circbuf_t :=
  {| samples := <[Z.to_nat (head b) := val]> (samples b);
     head := int_rem (int_add (head b) 1) capacity;
     count := if count b <? capacity then int_add (count b) 1 else count b |}.

(** The slot read at iteration [i] of the scan. *)
Definition scan_index (b : circbuf_t) (i : Z) : Z :=
  int_rem (int_add (int_sub (int_add (head b) capacity) (count b)) i) capacity.

(** The body of the [for] loop: [n] iterations are left, [i] is the loop
    counter. *)
Fixpoint stats_loop (b : circbuf_t) (n : nat) (i : Z) (sum mm Mx : double)
  : double * double * double :=
  match n with
  | O => (sum, mm, Mx)
  | S n' =>
      let v := sample_at b (scan_index b i) in
      stats_loop b n' (int_add i 1)
        (sum + v)%float
        (if PrimFloat.ltb v mm then v else mm)
        (if double_gt v Mx then v else Mx)
  end.

Definition buffer_compute_stats (b : circbuf_t) : stats_t :=
  if count b =? 0 then
    {| st_avg := 0%float; st_min := 0%float; st_max := 0%float; st_count := 0 |}
  else
    let '(sum, mm, Mx) :=
      stats_loop b (Z.to_nat (count b)) 0 0%float (sample_at b 0) (sample_at b 0) in
    {| st_avg := (sum / double_of_int (count b))%float;
       st_min := mm;
       st_max := Mx;
       st_count := count b |}.

(** The values the scan reads, in the order it reads them. *)
Definition window (b : circbuf_t) : list double :=
  map (fun i : nat => sample_at b (scan_index b (Z.of_nat i)))
      (seq 0 (Z.to_nat (count b))).

(** The window after the pushes [vs], from the initialised buffer. *)
Definition pushes (vs : list double) : circbuf_t :=
  fold_left buffer_push vs (buffer_init buffer_static).

End Ring.

Definition MAX_SAMPLES : Z := 1024.
Definition PERIOD_SECONDS : Z := 5.

(** The states a window can be in: the initialised buffer and whatever
    pushes lead to. *)
Inductive reachable (capacity : Z) : circbuf_t -> Prop :=
  | reach_init : reachable capacity (buffer_init (buffer_static capacity))
  | reach_push (b : circbuf_t) (v : double) :
      reachable capacity b -> reachable capacity (buffer_push capacity b v).

(** What the buffer is after the pushes [vs]: the write position and the
    count follow the number of pushes, and slot [k mod capacity] holds the
    [k]-th pushed value as long as fewer than [capacity] pushes came after. *)
Record ring_inv (capacity : Z) (vs : list double) (b : circbuf_t) : Prop := {
  ri_length : length (samples b) = Z.to_nat capacity;
  ri_head : head b = Z.of_nat (length vs) mod capacity;
  ri_count : count b = Z.min (Z.of_nat (length vs)) capacity;
  ri_slots : forall k : nat,
    Z.of_nat (length vs) - capacity <= Z.of_nat k < Z.of_nat (length vs) ->
    samples b !! Z.to_nat (Z.of_nat k mod capacity) = vs !! k
}.

(** Where slot 0 of the array stands in the window after [n] pushes: the
    last push that landed on slot 0 was push number
    [(n - 1) / capacity * capacity], counting from 0. *)
Definition slot0_index (capacity : Z) (n : nat) : nat :=
  Z.to_nat ((Z.of_nat n - 1) / capacity * capacity) - (n - Z.to_nat capacity).

(** ** The aggregate of a list of values

    The specification's reading of [computeAggregate]: one pass over the
    retained values in chronological order, in double arithmetic. [s0] is
    the value the running minimum and maximum start from. *)

Definition pick_min (mm v : double) : double := if PrimFloat.ltb v mm then v else mm.
Definition pick_max (Mx v : double) : double := if double_gt v Mx then v else Mx.

Definition sum_in_order (w : list double) : double := fold_left PrimFloat.add w 0%float.

Definition stats_zero : stats_t :=
  {| st_avg := 0%float; st_min := 0%float; st_max := 0%float; st_count := 0 |}.

Definition window_aggregate (s0 : double) (w : list double) : stats_t :=
  match w with
  | [] => stats_zero
  | _ :: _ =>
      {| st_avg := (sum_in_order w / double_of_int (Z.of_nat (length w)))%float;
         st_min := fold_left pick_min w s0;
         st_max := fold_left pick_max w s0;
         st_count := Z.of_nat (length w) |}
  end.

Definition no_nan (l : list double) : bool :=
  forallb (fun v => negb (PrimFloat.is_nan v)) l.

(** [m] is one of the values of [l] and none is smaller (larger). *)
Definition least_of (m : double) (l : list double) : Prop :=
  m ∈ l /\ forall x, x ∈ l -> PrimFloat.leb m x = true.
Definition greatest_of (m : double) (l : list double) : Prop :=
  m ∈ l /\ forall x, x ∈ l -> PrimFloat.leb x m = true.

(** The real number a finite double stands for, as a fraction, and the
    mean of a list of such numbers in exact arithmetic. *)
Definition Q_of_double (x : double) : option Q :=
  match Prim2SF x with
  | S754_zero _ => Some 0%Q
  | S754_finite s m e =>
      let mag := if 0 <=? e then inject_Z (Z.pos m * 2 ^ e)
                 else Qmake (Z.pos m) (Z.to_pos (2 ^ (- e))) in
      Some (if s then Qopp mag else mag)
  | _ => None
  end.

Definition exact_mean (l : list double) : option Q :=
  let add (acc : option Q) (x : double) :=
    match acc, Q_of_double x with
    | Some a, Some q => Some (Qplus a q)
    | _, _ => None
    end in
  match fold_left add l (Some 0%Q) with
  | Some s => Some (Qdiv s (inject_Z (Z.of_nat (length l))))
  | None => None
  end.

Definition is_exact_mean (a : double) (l : list double) : bool :=
  match Q_of_double a, exact_mean l with
  | Some qa, Some q => Qeq_bool qa q
  | _, _ => false
  end.

(** ** Order of the doubles

    The rank of a value that is not a NaN: its class first (the infinities
    outside, zero in the middle), then exponent and significand. *)
Definition SFrank (f : spec_float) : Z * Z * Z :=
  match f with
  | S754_zero _ => (0, 0, 0)
  | S754_infinity true => (-2, 0, 0)
  | S754_infinity false => (2, 0, 0)
  | S754_nan => (0, 0, 0)
  | S754_finite true m e => (-1, - e, - Z.pos m)
  | S754_finite false m e => (1, e, Z.pos m)
  end.

Definition lex_lt (p q : Z * Z * Z) : Prop :=
  let '(a1, b1, c1) := p in
  let '(a2, b2, c2) := q in
  a1 < a2 \/ (a1 = a2 /\ (b1 < b2 \/ (b1 = b2 /\ c1 < c2))).

Definition SFis_nan (f : spec_float) : bool :=
  match f with S754_nan => true | _ => false end.

(** ** The reply text

    [snprintf] belongs to the C library; what follows is its contract
    (ISO C, 7.21.6): [%d] prints a signed decimal, [%.3f] the decimal
    expansion of the value correctly rounded to three places, ties to even,
    and [snprintf] stores at most [size - 1] characters and a NUL and
    returns the length of the whole text. A NaN prints without sign. *)

Definition fmt_d (z : Z) : string := NilZero.string_of_int (Z.to_int z).

Definition round_half_even (num den : Z) : Z :=
  let q := num / den in
  match Z.compare (2 * (num mod den)) den with
  | Lt => q
  | Gt => q + 1
  | Eq => if Z.even q then q else q + 1
  end.

(** A thousand times [m * 2^e], rounded to an integer. *)
Definition scaled3 (m : positive) (e : Z) : Z :=
  if 0 <=? e then Z.pos m * 2 ^ e * 1000
  else round_half_even (Z.pos m * 1000) (2 ^ (- e)).

Definition pad3 (n : Z) : string :=
  fmt_d (n / 100) ++ fmt_d (n / 10 mod 10) ++ fmt_d (n mod 10).

Definition fmt_fixed3 (neg : bool) (n : Z) : string :=
  (if neg then "-" else "") ++ fmt_d (n / 1000) ++ "." ++ pad3 (n mod 1000).

Definition fmt_f3 (x : double) : string :=
  match Prim2SF x with
  | S754_zero s => fmt_fixed3 s 0
  | S754_infinity s => if s then "-inf" else "inf"
  | S754_nan => "nan"
  | S754_finite s m e => fmt_fixed3 s (scaled3 m e)
  end.

(** The characters stored before the NUL, and the value returned. *)
Definition snprintf (size : nat) (text : string) : string * Z :=
  (substring 0 (size - 1) text, Z.of_nat (String.length text)).

(** ["ACK: received %.3f from pid %d"] *)
Definition ack_text (temp : double) (pid : Z) : string :=
  "ACK: received " ++ fmt_f3 temp ++ " from pid " ++ fmt_d pid.

Definition REPLY_SIZE : nat := 128.

(** A character of the 7-bit ASCII set, and a text made of such. *)
Definition is_ascii7 (c : ascii) : bool :=
  match c with Ascii _ _ _ _ _ _ _ b7 => negb b7 end.

Fixpoint all_ascii7 (text : string) : bool :=
  match text with
  | EmptyString => true
  | String c rest => is_ascii7 c && all_ascii7 rest
  end.

(** ** The server

    The request record, the block in shared memory, and the two threads.
    A mutex is not a field here: each critical section of the source is one
    atomic step below. *)

Record temp_msg_t : Set := mk_temp_msg {
  type : Z;
  pid : Z;
  temp : double
}.

Module Shm.

Record shared_stats_t : Set := mk {
  avg : double;
  minimum : double;
  maximum : double;
  count : Z;
  last_updated : Z
}.

(** The four fields a reader takes as the published aggregate. *)
Definition numeric (s : shared_stats_t) : double * double * double * Z :=
  (avg s, minimum s, maximum s, count s).

End Shm.

Definition SERVER_NAME : string := "TempServer".
Definition EOK : Z := 0.

(** What the process lets out, in order. *)
Inductive output : Set :=
  | Printf (line : string)
  | LogReceived (pid : Z) (temp : double)
  | LogStats (count : Z) (avg min max : double)
  | Perror (what : string)
  | MsgReply (rcvid : Z) (status : Z) (reply_msg : string) (nbytes : Z)
  | NameDetach.

(** Where [main] stands in its message loop. *)
Inductive listener_pc : Set :=
  | L_receive
  | L_push (rcvid : Z) (rmsg : temp_msg_t)
  | L_touch (rcvid : Z) (rmsg : temp_msg_t)
  | L_reply (rcvid : Z) (rmsg : temp_msg_t)
  | L_cleanup.

(** Where [timer_thread] stands; [T_write] carries its local variables. *)
Inductive timer_pc : Set :=
  | T_sleep (wake_at : Z)
  | T_compute
  | T_write (local : stats_t).

Record server : Set := mk_server {
  buffer : circbuf_t;
  shm_stats : Shm.shared_stats_t;
  clock : Z;
  listener : listener_pc;
  timer : timer_pc;
  out : list output
}.

(** The steps of the two threads and of the world around them. *)
Inductive action : Set :=
  | Tick (dt : Z)
  | ReceiveFail
  | Receive (rcvid : Z) (rmsg : temp_msg_t)
  | ListenerPush
  | ListenerTouch
  | ListenerReply
  | Cleanup
  | TimerWake
  | TimerCompute
  | TimerWrite.

(** [main] up to the message loop, every call succeeding, at time [t0]. *)
Definition server_start (t0 : Z) : server :=
  {| buffer := buffer_init (buffer_static MAX_SAMPLES);
     shm_stats := Shm.mk 0 0 0 0 t0;
     clock := t0;
     listener := L_receive;
     timer := T_sleep (t0 + PERIOD_SECONDS);
     out := [Printf "Starting temp_server...";
             Printf ("[server] Name attached as '" ++ SERVER_NAME ++ "'")] |}.

(** The reply of one iteration: [snprintf] into [reply_msg], then
    [MsgReply] with [written + 1] bytes. *)
Definition reply_of (rcvid : Z) (rmsg : temp_msg_t) : output :=
  let '(reply_msg, written) := snprintf REPLY_SIZE (ack_text (temp rmsg) (pid rmsg)) in
  MsgReply rcvid EOK reply_msg (int_add written 1).

Definition set_listener (s : server) (l : listener_pc) : server :=
  mk_server (buffer s) (shm_stats s) (clock s) l (timer s) (out s).
Definition set_timer (s : server) (t : timer_pc) : server :=
  mk_server (buffer s) (shm_stats s) (clock s) (listener s) t (out s).
Definition emit (s : server) (o : output) : server :=
  mk_server (buffer s) (shm_stats s) (clock s) (listener s) (timer s) (out s ++ [o]).

(** The message loop of [main], one step at a time. *)
Definition main (a : action) (s : server) : option server :=
  match a, listener s with
  (* MsgReceive returned -1: perror, continue *)
  | ReceiveFail, L_receive =>
      Some (emit s (Perror "MsgReceive"))
  (* MsgReceive returned a receive id: the log line *)
  | Receive rcvid rmsg, L_receive =>
      if rcvid =? -1 then None
      else Some (set_listener (emit s (LogReceived (pid rmsg) (temp rmsg))) (L_push rcvid rmsg))
  (* buffer_push(&buffer, rmsg.temp) *)
  | ListenerPush, L_push rcvid rmsg =>
      Some (mk_server (buffer_push MAX_SAMPLES (buffer s) (temp rmsg)) (shm_stats s) (clock s)
              (L_touch rcvid rmsg) (timer s) (out s))
  (* shm_stats->last_updated = time(NULL), under the shared mutex *)
  | ListenerTouch, L_touch rcvid rmsg =>
      let h := shm_stats s in
      Some (mk_server (buffer s)
              (Shm.mk (Shm.avg h) (Shm.minimum h) (Shm.maximum h) (Shm.count h) (clock s))
              (clock s) (L_reply rcvid rmsg) (timer s) (out s))
  (* snprintf, MsgReply, and back to MsgReceive *)
  | ListenerReply, L_reply rcvid rmsg =>
      Some (set_listener (emit s (reply_of rcvid rmsg)) L_receive)
  (* past the loop: name_detach and the rest *)
  | Cleanup, L_cleanup =>
      Some (emit s NameDetach)
  | _, _ => None
  end.

(** The loop of [timer_thread], one step at a time. *)
Definition timer_thread (a : action) (s : server) : option server :=
  match a, timer s with
  (* sleep(PERIOD_SECONDS) is over *)
  | TimerWake, T_sleep wake_at =>
      if wake_at <=? clock s then Some (set_timer s T_compute) else None
  (* buffer_compute_stats(&buffer, &avg, &min, &max, &count) *)
  | TimerCompute, T_compute =>
      Some (set_timer s (T_write (buffer_compute_stats MAX_SAMPLES (buffer s))))
  (* the five stores under the shared mutex, the log line, and sleep again *)
  | TimerWrite, T_write l =>
      Some (mk_server (buffer s)
              (Shm.mk (st_avg l) (st_min l) (st_max l) (st_count l) (clock s))
              (clock s) (listener s) (T_sleep (clock s + PERIOD_SECONDS))
              (out s ++ [LogStats (st_count l) (st_avg l) (st_min l) (st_max l)]))
  | _, _ => None
  end.

(** One step of the process: time passes, or one of the threads moves. *)
Definition step (a : action) (s : server) : option server :=
  match a with
  | Tick dt =>
      if 0 <=? dt
      then Some (mk_server (buffer s) (shm_stats s) (clock s + dt) (listener s) (timer s) (out s))
      else None
  | ReceiveFail | Receive _ _ | ListenerPush | ListenerTouch | ListenerReply | Cleanup =>
      main a s
  | TimerWake | TimerCompute | TimerWrite =>
      timer_thread a s
  end.

(** A run: the steps of [tr] one after the other. *)
Fixpoint run (tr : list action) (s : server) : option server :=
  match tr with
  | [] => Some s
  | a :: tr' =>
      match step a s with
      | Some s' => run tr' s'
      | None => None
      end
  end.

Definition is_push (a : action) : bool :=
  match a with ListenerPush => true | _ => false end.
Definition is_write (a : action) : bool :=
  match a with TimerWrite => true | _ => false end.
Definition is_reply (a : action) : bool :=
  match a with ListenerReply => true | _ => false end.
Definition is_reply_out (o : output) : bool :=
  match o with MsgReply _ _ _ _ => true | _ => false end.

(** Neither a push of the listener nor a publication of the timer. *)
Definition quiet (a : action) : bool := negb (is_push a) && negb (is_write a).

Definition reply_text (o : output) : string :=
  match o with MsgReply _ _ reply_msg _ => reply_msg | _ => EmptyString end.
Definition reply_nbytes (o : output) : Z :=
  match o with MsgReply _ _ _ nbytes => nbytes | _ => 0 end.

(** One when the listener has pushed the reading it handles and not yet
    replied. *)
Definition pending (l : listener_pc) : nat :=
  match l with
  | L_touch _ _ | L_reply _ _ => 1
  | _ => 0
  end.

(** What holds between two publications when no value is pushed: the
    window is still [b], time has not gone back, and the timer is asleep
    until [c + PERIOD_SECONDS] or already past it with nothing but the
    aggregate of [b] in hand. *)
Definition idle_inv (b : circbuf_t) (c : Z) (s : server) : Prop :=
  buffer s = b /\ c <= clock s /\
  match timer s with
  | T_sleep wake_at => wake_at = c + PERIOD_SECONDS
  | T_compute => c + PERIOD_SECONDS <= clock s
  | T_write l => c + PERIOD_SECONDS <= clock s /\ l = buffer_compute_stats MAX_SAMPLES b
  end.

(** The timer holds the aggregate of [b], which is still the window. *)
Definition holding_inv (b : circbuf_t) (s : server) : Prop :=
  buffer s = b /\ timer s = T_write (buffer_compute_stats MAX_SAMPLES b).

Definition listener_action (a : action) : bool :=
  match a with
  | ReceiveFail | Receive _ _ | ListenerPush | ListenerTouch | ListenerReply | Cleanup => true
  | _ => false
  end.

(** The window holds the values pushed so far, and the listener stands
    after the push of the reading it is handling: that reading's
    temperature was pushed last. *)
Definition pushed_inv (n : nat) (s : server) : Prop :=
  exists vs : list double,
    length vs = n /\
    buffer s = pushes MAX_SAMPLES vs /\
    match listener s with
    | L_touch _ rmsg | L_reply _ rmsg => last vs = Some (temp rmsg)
    | _ => True
    end.

(** ** Requests in arrival order

    The requests a run has received, oldest first, and what the server owes
    for them. *)

Fixpoint received (tr : list action) : list (Z * temp_msg_t) :=
  match tr with
  | [] => []
  | Receive rcvid rmsg :: tr' => (rcvid, rmsg) :: received tr'
  | _ :: tr' => received tr'
  end.

Definition temps (rs : list (Z * temp_msg_t)) : list double :=
  map (fun r => temp (snd r)) rs.

Definition replies (rs : list (Z * temp_msg_t)) : list output :=
  map (fun r => reply_of (fst r) (snd r)) rs.

Definition pushes_made (tr : list action) : nat := length (List.filter is_push tr).
Definition replies_made (tr : list action) : nat := length (List.filter is_reply tr).

(** The four numbers of an aggregate, as [Shm.numeric] lays them out. *)
Definition numeric_of (r : stats_t) : double * double * double * Z :=
  (st_avg r, st_min r, st_max r, st_count r).

(** Where the listener stands among the requests received: all of them are
    pushed and answered, except the last one while it is being handled. *)
Definition served_inv (tr : list action) (s : server) : Prop :=
  buffer s = pushes MAX_SAMPLES (temps (take (pushes_made tr) (received tr))) /\
  List.filter is_reply_out (out s) = replies (take (replies_made tr) (received tr)) /\
  match listener s with
  | L_receive =>
      pushes_made tr = length (received tr) /\ replies_made tr = length (received tr)
  | L_push rcvid rmsg =>
      last (received tr) = Some (rcvid, rmsg) /\
      S (pushes_made tr) = length (received tr) /\
      S (replies_made tr) = length (received tr)
  | L_touch rcvid rmsg | L_reply rcvid rmsg =>
      last (received tr) = Some (rcvid, rmsg) /\
      pushes_made tr = length (received tr) /\
      S (replies_made tr) = length (received tr)
  | L_cleanup => False
  end.

(** What is published, and what the timer holds between its two critical
    sections, is the aggregate of the window as it was after some push
    already made. *)
Definition snapshot_inv (tr : list action) (s : server) : Prop :=
  (exists k : nat,
     (k <= pushes_made tr)%nat /\
     Shm.numeric (shm_stats s)
     = numeric_of (buffer_compute_stats MAX_SAMPLES
                     (pushes MAX_SAMPLES (temps (take k (received tr)))))) /\
  match timer s with
  | T_write l =>
      exists k : nat,
        (k <= pushes_made tr)%nat /\
        l = buffer_compute_stats MAX_SAMPLES
              (pushes MAX_SAMPLES (temps (take k (received tr))))
  | _ => True
  end.

(** Since the publication at time [c] the timer has slept, or is past its
    sleep. *)
Definition cadence_inv (c : Z) (s : server) : Prop :=
  c <= clock s /\
  match timer s with
  | T_sleep wake_at => wake_at = c + PERIOD_SECONDS
  | T_compute | T_write _ => c + PERIOD_SECONDS <= clock s
  end.

(** The published count is the count of the window as it was after some
    push already made, and what the timer holds between its two critical
    sections is not older than what is published. *)
Definition lag_inv (tr : list action) (s : server) : Prop :=
  exists k : nat,
    (k <= pushes_made tr)%nat /\
    Shm.count (shm_stats s) = Z.min (Z.of_nat k) MAX_SAMPLES /\
    match timer s with
    | T_write l =>
        exists k' : nat,
          (k <= k' <= pushes_made tr)%nat /\
          st_count l = Z.min (Z.of_nat k') MAX_SAMPLES
    | _ => True
    end.

(** ** The client ([client.c])

    One iteration of the client's loop builds a request from [getpid()] and
    [rand()]. [RAND_MAX] is the one of the QNX C library, for which the
    program is written. *)

Definition RAND_MAX : Z := 32767.

(** [r = (double)rand() / RAND_MAX], then [15.0 + r * (40.0 - 15.0)], each
    operation rounded to a double. *)
Definition reading (rand : Z) : double :=
  let r := (double_of_int rand / double_of_int RAND_MAX)%float in
  (15 + r * (40 - 15))%float.

(** [msg.type = 1; msg.pid = getpid(); msg.temp = ...] *)
Definition client_msg (getpid rand : Z) : temp_msg_t :=
  {| type := 1; pid := getpid; temp := reading rand |}.

(** [n] integers in a row, from [z] up. *)
Fixpoint upto (n : nat) (z : Z) : list Z :=
  match n with
  | O => []
  | S n' => z :: upto n' (z + 1)
  end.

(** What [rand()] can return: 0 to [RAND_MAX]. *)
Definition rand_values : list Z := upto (Z.to_nat (RAND_MAX + 1)) 0.

(** The reading is between 15 and 40 and prints as [dd.ddd]. *)
Definition reading_ok (rand : Z) : bool :=
  PrimFloat.leb 15 (reading rand) && PrimFloat.leb (reading rand) 40
  && (String.length (fmt_f3 (reading rand)) =? 6)%nat.

(** * Properties *)

(** ** The order of the doubles that are not NaN *)

(** [SFcompare] is the comparison of the ranks, and is undefined on a NaN. *)
Lemma SFcompare_rank (x y : spec_float) :
  match SFcompare x y with
  | Some c =>
      SFis_nan x = false /\ SFis_nan y = false /\
      (c = Lt <-> lex_lt (SFrank x) (SFrank y)) /\
      (c = Gt <-> lex_lt (SFrank y) (SFrank x))
  | None => SFis_nan x = true \/ SFis_nan y = true
  end.
Proof.
  unfold SFcompare, lex_lt.
  destruct x as [sx | [|] | | [|] mx ex], y as [sy | [|] | | [|] my ey];
    cbn [SFrank SFis_nan]; auto;
    try (repeat split; intros; first [discriminate | lia]).
  all: try (destruct sx; repeat split; intros; first [discriminate | lia]).
  all: try (destruct sy; repeat split; intros; first [discriminate | lia]).
  all: change (Pos.compare_cont Eq mx my) with (Pos.compare mx my);
    destruct (Z.compare_spec ex ey); [destruct (Pos.compare_spec mx my) | .. ];
    cbn [CompOpp]; repeat split; intros; first [discriminate | lia].
Qed.

Lemma SFltb_rank (x y : spec_float) :
  SFltb x y = true <->
  SFis_nan x = false /\ SFis_nan y = false /\ lex_lt (SFrank x) (SFrank y).
Proof.
  unfold SFltb. pose proof (SFcompare_rank x y) as H.
  destruct (SFcompare x y) as [[ | | ] | ]; intuition congruence.
Qed.

Lemma SFleb_rank (x y : spec_float) :
  SFleb x y = true <->
  SFis_nan x = false /\ SFis_nan y = false /\ ~ lex_lt (SFrank y) (SFrank x).
Proof.
  unfold SFleb. pose proof (SFcompare_rank x y) as H.
  destruct (SFcompare x y) as [[ | | ] | ]; intuition congruence.
Qed.

Lemma is_nan_Prim2SF (x : double) : PrimFloat.is_nan x = SFis_nan (Prim2SF x).
Proof.
  unfold PrimFloat.is_nan. rewrite FloatAxioms.eqb_spec. unfold SFeqb, SFcompare, SFis_nan.
  destruct (Prim2SF x) as [s | [|] | | [|] m e]; try reflexivity.
  - rewrite Z.compare_refl, Pos.compare_cont_refl. reflexivity.
  - rewrite Z.compare_refl, Pos.compare_cont_refl. reflexivity.
Qed.

Lemma ltb_rank (x y : double) :
  PrimFloat.ltb x y = true <->
  PrimFloat.is_nan x = false /\ PrimFloat.is_nan y = false /\
  lex_lt (SFrank (Prim2SF x)) (SFrank (Prim2SF y)).
Proof. rewrite FloatAxioms.ltb_spec, !is_nan_Prim2SF. apply SFltb_rank. Qed.

Lemma leb_rank (x y : double) :
  PrimFloat.leb x y = true <->
  PrimFloat.is_nan x = false /\ PrimFloat.is_nan y = false /\
  ~ lex_lt (SFrank (Prim2SF y)) (SFrank (Prim2SF x)).
Proof. rewrite FloatAxioms.leb_spec, !is_nan_Prim2SF. apply SFleb_rank. Qed.

Lemma leb_refl (x : double) : PrimFloat.is_nan x = false -> PrimFloat.leb x x = true.
Proof.
  intros Hx. apply leb_rank. repeat split; try assumption.
  unfold lex_lt. destruct (SFrank (Prim2SF x)) as [[a b] c]. lia.
Qed.

Lemma leb_trans (x y z : double) :
  PrimFloat.leb x y = true -> PrimFloat.leb y z = true -> PrimFloat.leb x z = true.
Proof.
  rewrite !leb_rank. unfold lex_lt.
  destruct (SFrank (Prim2SF x)) as [[a1 b1] c1], (SFrank (Prim2SF y)) as [[a2 b2] c2],
    (SFrank (Prim2SF z)) as [[a3 b3] c3].
  intros (Hx & Hy & Hxy) (_ & Hz & Hyz). repeat split; try assumption. lia.
Qed.

Lemma ltb_leb (x y : double) : PrimFloat.ltb x y = true -> PrimFloat.leb x y = true.
Proof.
  rewrite ltb_rank, leb_rank. unfold lex_lt.
  destruct (SFrank (Prim2SF x)) as [[a1 b1] c1], (SFrank (Prim2SF y)) as [[a2 b2] c2].
  intros (Hx & Hy & Hxy). repeat split; try assumption. lia.
Qed.

Lemma not_ltb_leb (x y : double) :
  PrimFloat.is_nan x = false -> PrimFloat.is_nan y = false ->
  PrimFloat.ltb x y = false -> PrimFloat.leb y x = true.
Proof.
  intros Hx Hy Hlt. apply leb_rank. repeat split; try assumption.
  intros Hlex. assert (PrimFloat.ltb x y = true) as Ht by (apply ltb_rank; auto).
  congruence.
Qed.

(** Two doubles, each no greater than the other, are [==]. *)
Lemma eqb_rank (x y : double) :
  PrimFloat.leb x y = true -> PrimFloat.leb y x = true -> PrimFloat.eqb x y = true.
Proof.
  rewrite !FloatAxioms.leb_spec, FloatAxioms.eqb_spec. unfold SFleb, SFeqb.
  pose proof (SFcompare_rank (Prim2SF x) (Prim2SF y)) as Hxy.
  pose proof (SFcompare_rank (Prim2SF y) (Prim2SF x)) as Hyx.
  destruct (SFcompare (Prim2SF x) (Prim2SF y)) as [[ | | ] | ],
    (SFcompare (Prim2SF y) (Prim2SF x)) as [[ | | ] | ];
    try discriminate; try reflexivity; intros _ _.
  all: destruct Hxy as (_ & _ & Hlt & Hgt), Hyx as (_ & _ & Hlt' & Hgt').
  all: exfalso; unfold lex_lt in *;
    destruct (SFrank (Prim2SF x)) as [[a1 b1] c1], (SFrank (Prim2SF y)) as [[a2 b2] c2];
    repeat match goal with
           | H : ?c = ?c <-> _ |- _ => pose proof (proj1 H eq_refl); clear H
           | H : _ = _ <-> ?P |- _ =>
               assert (~ P) by (intros HP; apply H in HP; discriminate); clear H
           end; lia.
Qed.

(** ** No operation of the ring wraps *)

Lemma wrap32_id (z : Z) : INT_MIN <= z <= INT_MAX -> wrap32 z = z.
Proof.
  unfold INT_MIN, INT_MAX, wrap32. intros Hz.
  rewrite Z.mod_small by lia. lia.
Qed.

Lemma int_add_id (a b : Z) : INT_MIN <= a + b <= INT_MAX -> int_add a b = a + b.
Proof. apply wrap32_id. Qed.

Lemma int_sub_id (a b : Z) : INT_MIN <= a - b <= INT_MAX -> int_sub a b = a - b.
Proof. apply wrap32_id. Qed.

Lemma int_rem_mod (a b : Z) : 0 <= a -> 0 < b -> int_rem a b = a mod b.
Proof. intros Ha Hb. unfold int_rem. apply Z.rem_mod_nonneg; lia. Qed.


(** ** The running minimum and maximum of a list *)

Lemma no_nan_elem (l : list double) (x : double) :
  no_nan l = true -> x ∈ l -> PrimFloat.is_nan x = false.
Proof.
  unfold no_nan. rewrite forallb_forall. intros H Hx.
  apply list_elem_of_In, H, negb_true_iff in Hx. exact Hx.
Qed.

(** The two running extremes are one fold, read with the order or with its
    converse. *)
Section Running.

Variable pick : double -> double -> double.
Variable le : double -> double -> Prop.

Hypothesis pick_either : forall m v, pick m v = m \/ pick m v = v.
Hypothesis le_refl : forall x, PrimFloat.is_nan x = false -> le x x.
Hypothesis le_trans : forall x y z, le x y -> le y z -> le x z.
Hypothesis pick_le : forall m v,
  PrimFloat.is_nan m = false -> PrimFloat.is_nan v = false ->
  le (pick m v) m /\ le (pick m v) v.

Lemma running_in (w : list double) (s0 : double) : fold_left pick w s0 ∈ s0 :: w.
Proof.
  revert s0. induction w as [ | v w IH]; intros s0; cbn [fold_left].
  - apply list_elem_of_here.
  - specialize (IH (pick s0 v)). rewrite !elem_of_cons in *.
    destruct IH as [-> | IH]; [ | tauto].
    destruct (pick_either s0 v) as [-> | ->]; tauto.
Qed.

(** The running extreme is within its start and within every value seen. *)
Lemma running_le (w : list double) (s0 : double) :
  PrimFloat.is_nan s0 = false -> no_nan w = true ->
  le (fold_left pick w s0) s0 /\ forall x, x ∈ w -> le (fold_left pick w s0) x.
Proof.
  revert s0. induction w as [ | v w IH]; intros s0 Hs0 Hw; cbn [fold_left].
  - split; [apply le_refl, Hs0 | intros x Hx; inversion Hx].
  - cbn in Hw. apply andb_true_iff in Hw as [Hv Hw]. apply negb_true_iff in Hv.
    assert (PrimFloat.is_nan (pick s0 v) = false) as Hp
      by (destruct (pick_either s0 v) as [-> | ->]; assumption).
    destruct (IH (pick s0 v) Hp Hw) as [Hstart Hall].
    destruct (pick_le s0 v Hs0 Hv) as [H1 H2].
    split; [exact (le_trans _ _ _ Hstart H1) | ].
    intros x Hx. apply elem_of_cons in Hx as [-> | Hx].
    + exact (le_trans _ _ _ Hstart H2).
    + apply Hall, Hx.
Qed.

End Running.

Lemma pick_min_either (m v : double) : pick_min m v = m \/ pick_min m v = v.
Proof. unfold pick_min. destruct (PrimFloat.ltb v m); auto. Qed.

Lemma pick_max_either (m v : double) : pick_max m v = m \/ pick_max m v = v.
Proof. unfold pick_max, double_gt. destruct (PrimFloat.ltb m v); auto. Qed.

Lemma pick_min_le (m v : double) :
  PrimFloat.is_nan m = false -> PrimFloat.is_nan v = false ->
  PrimFloat.leb (pick_min m v) m = true /\ PrimFloat.leb (pick_min m v) v = true.
Proof.
  intros Hm Hv. unfold pick_min. destruct (PrimFloat.ltb v m) eqn:Hlt.
  - split; [apply ltb_leb, Hlt | apply leb_refl, Hv].
  - split; [apply leb_refl, Hm | apply not_ltb_leb; assumption].
Qed.

Lemma pick_max_ge (m v : double) :
  PrimFloat.is_nan m = false -> PrimFloat.is_nan v = false ->
  PrimFloat.leb m (pick_max m v) = true /\ PrimFloat.leb v (pick_max m v) = true.
Proof.
  intros Hm Hv. unfold pick_max, double_gt. destruct (PrimFloat.ltb m v) eqn:Hlt.
  - split; [apply ltb_leb, Hlt | apply leb_refl, Hv].
  - split; [apply leb_refl, Hm | apply not_ltb_leb; assumption].
Qed.

(** Started from one of the values of the list, both extremes are values of
    the list. *)
Lemma scan_members (w : list double) (s0 : double) :
  s0 ∈ w -> fold_left pick_min w s0 ∈ w /\ fold_left pick_max w s0 ∈ w.
Proof.
  intros Hs0.
  pose proof (running_in pick_min pick_min_either w s0) as Hi.
  pose proof (running_in pick_max pick_max_either w s0) as Ha.
  rewrite elem_of_cons in Hi, Ha. split; intuition congruence.
Qed.

(** Started from one of its own values, the scan of a list without NaN ends
    on the least and the greatest of them. *)
Lemma scan_least_greatest (w : list double) (s0 : double) :
  s0 ∈ w -> no_nan w = true ->
  least_of (fold_left pick_min w s0) w /\ greatest_of (fold_left pick_max w s0) w.
Proof.
  intros Hs0 Hw. pose proof (no_nan_elem w s0 Hw Hs0) as Hn.
  destruct (scan_members w s0 Hs0) as [Hi Ha].
  destruct (running_le pick_min (fun x y => PrimFloat.leb x y = true)
              pick_min_either leb_refl leb_trans pick_min_le w s0 Hn Hw) as [_ Hmin].
  destruct (running_le pick_max (fun x y => PrimFloat.leb y x = true)
              pick_max_either leb_refl (fun x y z Hxy Hyz => leb_trans z y x Hyz Hxy)
              pick_max_ge w s0 Hn Hw) as [_ Hmax].
  split; split; assumption.
Qed.

Lemma window_aggregate_fields (s0 : double) (w : list double) :
  w <> [] ->
  window_aggregate s0 w
  = {| st_avg := (sum_in_order w / double_of_int (Z.of_nat (length w)))%float;
       st_min := fold_left pick_min w s0;
       st_max := fold_left pick_max w s0;
       st_count := Z.of_nat (length w) |}.
Proof. destruct w; [congruence | reflexivity]. Qed.

(** ** The loop of [buffer_compute_stats] is the scan of the window *)

Section ScanFacts.

Variable capacity : Z.

Lemma stats_loop_fold (b : circbuf_t) (n i : nat) (sum mm Mx : double) :
  Z.of_nat (i + n) <= INT_MAX ->
  let vals := map (fun j : nat => sample_at b (scan_index capacity b (Z.of_nat j))) (seq i n) in
  stats_loop capacity b n (Z.of_nat i) sum mm Mx
  = (fold_left PrimFloat.add vals sum, fold_left pick_min vals mm, fold_left pick_max vals Mx).
Proof.
  revert i sum mm Mx. induction n as [ | n IH]; intros i sum mm Mx Hi; cbn.
  - reflexivity.
  - rewrite int_add_id by (unfold INT_MIN, INT_MAX in *; lia).
    replace (Z.of_nat i + 1) with (Z.of_nat (S i)) by lia.
    rewrite IH by lia. reflexivity.
Qed.

Lemma window_length (b : circbuf_t) : length (window capacity b) = Z.to_nat (count b).
Proof. unfold window. rewrite length_map, length_seq. reflexivity. Qed.

Lemma compute_stats_window (b : circbuf_t) :
  0 <= count b <= INT_MAX ->
  buffer_compute_stats capacity b = window_aggregate (sample_at b 0) (window capacity b).
Proof.
  intros Hc. unfold buffer_compute_stats.
  pose proof (window_length b) as Hlen.
  destruct (Z.eqb_spec (count b) 0) as [H0 | H0].
  - rewrite H0 in Hlen. destruct (window capacity b); [reflexivity | discriminate].
  - change 0 with (Z.of_nat 0) at 1.
    rewrite stats_loop_fold by (cbn; lia). cbn zeta.
    fold (window capacity b).
    destruct (window capacity b) as [ | v w] eqn:Hw; [cbn in Hlen; lia | ].
    unfold window_aggregate, sum_in_order. rewrite Hlen, Z2Nat.id by lia. reflexivity.
Qed.

End ScanFacts.

(** ** The ring holds the most recent pushes *)

Section RingFacts.

Variable capacity : Z.
Hypothesis capacity_pos : 0 < capacity.
Hypothesis capacity_int : 2 * capacity <= 2 ^ 31.

#[local] Abbreviation push := (buffer_push capacity).
#[local] Abbreviation ring := (pushes capacity).
#[local] Abbreviation compute := (buffer_compute_stats capacity).

Lemma pushes_snoc (vs : list double) (v : double) :
  ring (vs ++ [v]) = push (ring vs) v.
Proof. unfold pushes. rewrite fold_left_app. reflexivity. Qed.

Lemma ring_inv_init : ring_inv capacity [] (ring []).
Proof.
  split; cbn.
  - apply length_replicate.
  - rewrite Z.mod_0_l; lia.
  - lia.
  - intros k Hk. lia.
Qed.

Lemma ring_inv_push (vs : list double) (b : circbuf_t) (v : double) :
  ring_inv capacity vs b -> ring_inv capacity (vs ++ [v]) (push b v).
Proof.
  intros [Hlen Hhead Hcount Hslots].
  assert (0 <= head b < capacity) as Hh by (rewrite Hhead; apply Z.mod_pos_bound; lia).
  assert (Z.of_nat (length (vs ++ [v])) = Z.of_nat (length vs) + 1) as Hn
    by (rewrite length_app; cbn; lia).
  unfold INT_MIN, INT_MAX in *.
  split; cbn [samples head count buffer_push].
  - rewrite length_insert. exact Hlen.
  - rewrite int_add_id by (unfold INT_MIN, INT_MAX; lia).
    rewrite int_rem_mod by lia.
    rewrite Hn, Hhead. rewrite Zplus_mod_idemp_l. reflexivity.
  - rewrite Hn, Hcount.
    destruct (Z.ltb_spec (Z.min (Z.of_nat (length vs)) capacity) capacity).
    + rewrite int_add_id by (unfold INT_MIN, INT_MAX; lia). lia.
    + lia.
  - intros k Hk. rewrite Hn in Hk.
    destruct (decide (k = length vs)) as [-> | Hne].
    + rewrite <- Hhead.
      rewrite list_lookup_insert_eq by lia.
      rewrite lookup_app_r by lia. rewrite Nat.sub_diag. reflexivity.
    + assert (Z.of_nat k mod capacity <> head b) as Hmod.
      { rewrite Hhead. intros Heq.
        assert ((Z.of_nat (length vs) - Z.of_nat k) mod capacity = 0) as H0.
        { rewrite Zminus_mod, Heq, Z.sub_diag. apply Z.mod_0_l. lia. }
        rewrite Z.mod_small in H0 by lia. lia. }
      rewrite list_lookup_insert_ne.
      2:{ intros Heq. apply Hmod. apply (f_equal Z.of_nat) in Heq.
          rewrite !Z2Nat.id in Heq by (try lia; apply Z.mod_pos_bound; lia). lia. }
      rewrite lookup_app_l by lia.
      apply Hslots. lia.
Qed.

Lemma pushes_inv (vs : list double) : ring_inv capacity vs (ring vs).
Proof.
  induction vs as [ | v vs IH] using rev_ind.
  - apply ring_inv_init.
  - rewrite pushes_snoc. apply ring_inv_push, IH.
Qed.

(** *** The scan reads the retained values, oldest first *)

Lemma scan_index_pushes (vs : list double) (i : nat) :
  Z.of_nat i < count (ring vs) ->
  scan_index capacity (ring vs) (Z.of_nat i)
  = (Z.of_nat (length vs) - count (ring vs) + Z.of_nat i) mod capacity.
Proof.
  destruct (pushes_inv vs) as [_ Hhead Hcount _]. intros Hi.
  assert (0 <= head (ring vs) < capacity) as Hh
    by (rewrite Hhead; apply Z.mod_pos_bound; lia).
  unfold scan_index.
  rewrite (int_add_id (head _)) by (unfold INT_MIN, INT_MAX; lia).
  rewrite int_sub_id by (unfold INT_MIN, INT_MAX; lia).
  rewrite int_add_id by (unfold INT_MIN, INT_MAX; lia).
  rewrite int_rem_mod by lia.
  rewrite Hhead at 1.
  replace (Z.of_nat (length vs) mod capacity + capacity - count (ring vs) + Z.of_nat i)
    with (Z.of_nat (length vs) mod capacity
          + (1 * capacity + (Z.of_nat i - count (ring vs)))) by lia.
  rewrite Zplus_mod_idemp_l.
  replace (Z.of_nat (length vs) + (1 * capacity + (Z.of_nat i - count (ring vs))))
    with (Z.of_nat (length vs) - count (ring vs) + Z.of_nat i + 1 * capacity) by lia.
  apply Z_mod_plus_full.
Qed.

(** The scan of the buffer after the pushes [vs] reads the last
    [min (length vs) capacity] of them, in the order they were pushed. *)
Lemma window_pushes (vs : list double) :
  window capacity (ring vs) = drop (length vs - Z.to_nat capacity) vs.
Proof.
  destruct (pushes_inv vs) as [Hlen Hhead Hcount Hslots].
  apply list_eq. intros i. unfold window.
  rewrite list_lookup_fmap, lookup_drop.
  destruct (decide (i < Z.to_nat (count (ring vs)))%nat) as [Hi | Hi].
  - rewrite lookup_seq_lt by exact Hi. cbn [fmap option_fmap option_map Nat.add].
    rewrite scan_index_pushes by lia.
    unfold sample_at.
    assert (Z.of_nat (length vs) - count (ring vs) + Z.of_nat i
            = Z.of_nat (length vs - Z.to_nat capacity + i)) as Hk by lia.
    rewrite Hk, Hslots by lia.
    destruct (lookup_lt_is_Some_2 vs (length vs - Z.to_nat capacity + i)) as [x Hx]; [lia | ].
    rewrite Hx. reflexivity.
  - rewrite lookup_seq_ge by lia. cbn.
    symmetry. apply lookup_ge_None. lia.
Qed.

(** Slot 0, where the scan takes its first minimum and maximum, holds one of
    the retained values as soon as one value was pushed. *)
Lemma slot0_lookup (vs : list double) :
  vs <> [] ->
  window capacity (ring vs) !! slot0_index capacity (length vs)
  = Some (sample_at (ring vs) 0).
Proof.
  intros Hne. destruct (pushes_inv vs) as [Hlen Hhead Hcount Hslots].
  assert (0 < length vs)%nat as Hpos by (destruct vs; cbn; [congruence | lia]).
  unfold slot0_index.
  set (n := Z.of_nat (length vs)) in *.
  set (k := (n - 1) / capacity * capacity).
  assert (0 <= (n - 1) / capacity) as Hq by (apply Z.div_pos; lia).
  assert (n - 1 = capacity * ((n - 1) / capacity) + (n - 1) mod capacity) as Hdiv
    by (apply Z.div_mod; lia).
  assert (0 <= (n - 1) mod capacity < capacity) as Hr by (apply Z.mod_pos_bound; lia).
  assert (n - capacity <= k < n /\ 0 <= k) as (Hk & Hk0) by (unfold k; nia).
  specialize (Hslots (Z.to_nat k)). rewrite Z2Nat.id in Hslots by lia.
  assert (k mod capacity = 0) as Hkm by (unfold k; apply Z_mod_mult).
  rewrite Hkm in Hslots. specialize (Hslots Hk).
  destruct (lookup_lt_is_Some_2 vs (Z.to_nat k)) as [x Hx]; [lia | ].
  unfold sample_at. rewrite Hslots. rewrite Hx at 1. cbn [default].
  rewrite window_pushes, lookup_drop. etrans; [ | exact Hx]. f_equal. lia.
Qed.

Lemma slot0_retained (vs : list double) :
  vs <> [] -> sample_at (ring vs) 0 ∈ window capacity (ring vs).
Proof.
  intros Hne. apply list_elem_of_lookup.
  exists (slot0_index capacity (length vs)). apply slot0_lookup, Hne.
Qed.

Lemma slot0_first (vs : list double) :
  Z.of_nat (length vs) <= capacity -> sample_at (ring vs) 0 = hd 0%float vs.
Proof.
  intros Hn. destruct (pushes_inv vs) as [Hlen Hhead Hcount Hslots].
  destruct vs as [ | v vs].
  - unfold sample_at. cbn. destruct (Z.to_nat capacity); reflexivity.
  - specialize (Hslots 0%nat). cbn [length] in *. rewrite Z.mod_0_l in Hslots by lia.
    unfold sample_at. rewrite Hslots by lia. reflexivity.
Qed.


Lemma reachable_pushes (b : circbuf_t) :
  reachable capacity b <-> exists vs, b = ring vs.
Proof.
  split.
  - induction 1 as [ | b v _ [vs ->]].
    + exists []. reflexivity.
    + exists (vs ++ [v]). symmetry. apply pushes_snoc.
  - intros [vs ->]. induction vs as [ | v vs IH] using rev_ind.
    + constructor.
    + rewrite pushes_snoc. constructor. exact IH.
Qed.

Lemma count_int (vs : list double) : 0 <= count (ring vs) <= INT_MAX.
Proof.
  destruct (pushes_inv vs) as [_ _ Hcount _]. unfold INT_MAX. lia.
Qed.

(** The aggregate after the pushes [vs] is the scan of the last
    [capacity] of them, started from the one that sits in slot 0. *)
Lemma compute_stats_pushes (vs : list double) :
  buffer_compute_stats capacity (ring vs)
  = window_aggregate (sample_at (ring vs) 0) (drop (length vs - Z.to_nat capacity) vs).
Proof.
  rewrite compute_stats_window by apply count_int.
  rewrite window_pushes. reflexivity.
Qed.

(** *** What [computeAggregate] returns *)

(** C1, as amended. After [N <= capacity] pushes into the initialised
    window, [buffer_compute_stats] returns the count [N]; for [N = 0] the
    zero aggregate; otherwise the average is the double-precision sum of the
    [N] values, added in the order they were pushed, divided by [N], the
    minimum and the maximum are two of the [N] values, and when none of the
    values is a NaN they are the least and the greatest of them. *)
Theorem aggregate_within_capacity (vs : list double) :
  Z.of_nat (length vs) <= capacity ->
  let r := compute (ring vs) in
  st_count r = Z.of_nat (length vs) /\
  (vs = [] -> r = stats_zero) /\
  (vs <> [] ->
     st_avg r = (sum_in_order vs / double_of_int (Z.of_nat (length vs)))%float /\
     st_min r ∈ vs /\ st_max r ∈ vs /\
     (no_nan vs = true -> least_of (st_min r) vs /\ greatest_of (st_max r) vs)).
Proof.
  intros HN r. subst r.
  rewrite compute_stats_pushes.
  rewrite slot0_first by exact HN.
  replace (length vs - Z.to_nat capacity)%nat with 0%nat by lia.
  rewrite drop_0.
  destruct vs as [ | v vs]; cbn [window_aggregate st_count st_avg st_min st_max hd].
  - split; [reflexivity | ]. split; [reflexivity | congruence].
  - assert (v ∈ v :: vs) as Hv by apply list_elem_of_here.
    split; [reflexivity | ]. split; [discriminate | ]. intros _.
    split; [reflexivity | ].
    split; [apply (scan_members (v :: vs) v Hv) | ].
    split; [apply (scan_members (v :: vs) v Hv) | ].
    intros Hnan. apply (scan_least_greatest (v :: vs) v Hv Hnan).
Qed.

(** C2, as amended. After [N > capacity] pushes the earlier values are
    gone: the count is [capacity], the average is the sum of the last
    [capacity] values in the order they were pushed over [capacity], and the
    minimum and the maximum are two of those values, the least and the
    greatest when none is a NaN. Any other history of more than [capacity]
    pushes that ends on the same [capacity] values gives the same count and
    the same average; without a NaN among them it gives a minimum and a
    maximum that are [==] to these; and when it has the same length it
    gives the very same aggregate. (The running minimum and maximum start
    from [samples[0]], and which of the retained values that is depends on
    [N].) *)
Theorem aggregate_beyond_capacity (vs : list double) :
  capacity < Z.of_nat (length vs) ->
  let w := drop (length vs - Z.to_nat capacity) vs in
  let r := compute (ring vs) in
  length w = Z.to_nat capacity /\
  st_count r = capacity /\
  st_avg r = (sum_in_order w / double_of_int capacity)%float /\
  st_min r ∈ w /\ st_max r ∈ w /\
  (no_nan w = true -> least_of (st_min r) w /\ greatest_of (st_max r) w) /\
  (forall vs' : list double,
     capacity < Z.of_nat (length vs') ->
     drop (length vs' - Z.to_nat capacity) vs' = w ->
     let r' := compute (ring vs') in
     st_count r' = st_count r /\
     st_avg r' = st_avg r /\
     st_min r' ∈ w /\ st_max r' ∈ w /\
     (no_nan w = true ->
      PrimFloat.eqb (st_min r') (st_min r) = true /\
      PrimFloat.eqb (st_max r') (st_max r) = true) /\
     (length vs' = length vs -> r' = r)).
Proof.
  intros HN. cbv zeta. set (w := drop (length vs - Z.to_nat capacity) vs).
  assert (vs <> []) as Hne by (intros ->; cbn in HN; lia).
  assert (length w = Z.to_nat capacity) as Hlen by (unfold w; rewrite length_drop; lia).
  assert (w <> []) as Hwne by (intros Hnil; rewrite Hnil in Hlen; cbn in Hlen; lia).
  pose proof (slot0_retained vs Hne) as Hs0.
  rewrite window_pushes in Hs0. fold w in Hs0.
  rewrite compute_stats_pushes. fold w.
  rewrite (window_aggregate_fields _ w Hwne). cbn [st_avg st_min st_max st_count].
  replace (Z.of_nat (length w)) with capacity by lia.
  split; [exact Hlen | ]. split; [reflexivity | ]. split; [reflexivity | ].
  split; [apply (scan_members w _ Hs0) | ].
  split; [apply (scan_members w _ Hs0) | ].
  split; [intros Hnan; apply (scan_least_greatest w _ Hs0 Hnan) | ].
  intros vs' HN' Hd'.
  assert (vs' <> []) as Hne' by (intros ->; cbn in HN'; lia).
  pose proof (slot0_retained vs' Hne') as Hs0'.
  rewrite window_pushes, Hd' in Hs0'.
  rewrite compute_stats_pushes, Hd'.
  rewrite (window_aggregate_fields _ w Hwne). cbn [st_avg st_min st_max st_count].
  split; [lia | ]. split; [replace (Z.of_nat (length w)) with capacity by lia; reflexivity | ].
  split; [apply (scan_members w _ Hs0') | ].
  split; [apply (scan_members w _ Hs0') | ].
  split.
  - intros Hnan.
    destruct (scan_least_greatest w _ Hs0 Hnan) as [[Hmin_in Hmin] [Hmax_in Hmax]].
    destruct (scan_least_greatest w _ Hs0' Hnan) as [[Hmin_in' Hmin'] [Hmax_in' Hmax']].
    split; apply eqb_rank.
    + apply Hmin', Hmin_in.
    + apply Hmin, Hmin_in'.
    + apply Hmax, Hmax_in'.
    + apply Hmax', Hmax_in.
  - intros Hl'.
    pose proof (slot0_lookup vs Hne) as Hlk.
    pose proof (slot0_lookup vs' Hne') as Hlk'.
    rewrite window_pushes in Hlk, Hlk'.
    rewrite Hd', Hl' in Hlk'. fold w in Hlk.
    assert (sample_at (ring vs') 0 = sample_at (ring vs) 0) as -> by congruence.
    replace (Z.of_nat (length w)) with capacity by lia. reflexivity.
Qed.

(** C4, as amended. In every state that pushes lead to from the initialised
    window, [0 <= count <= capacity], and the oldest retained value sits
    [count] slots behind the write position [head], modulo [capacity]: that
    is where the scan starts. Once the window is full this is [capacity]
    slots behind, which is [head] itself. *)
Theorem oldest_is_count_behind (b : circbuf_t) :
  reachable capacity b ->
  0 <= count b <= capacity /\
  0 <= head b < capacity /\
  scan_index capacity b 0 = (head b - count b) mod capacity /\
  (count b = capacity -> scan_index capacity b 0 = (head b - capacity) mod capacity) /\
  exists vs : list double,
    b = ring vs /\
    (vs <> [] ->
     samples b !! Z.to_nat ((head b - count b) mod capacity)
     = vs !! (length vs - Z.to_nat (count b))%nat).
Proof.
  intros Hb. apply reachable_pushes in Hb as [vs ->].
  destruct (pushes_inv vs) as [Hlen Hhead Hcount Hslots].
  assert (0 <= head (ring vs) < capacity) as Hh
    by (rewrite Hhead; apply Z.mod_pos_bound; lia).
  assert (scan_index capacity (ring vs) 0
          = (head (ring vs) - count (ring vs)) mod capacity) as Hscan.
  { unfold scan_index.
    rewrite (int_add_id (head _)) by (unfold INT_MIN, INT_MAX; lia).
    rewrite int_sub_id by (unfold INT_MIN, INT_MAX; lia).
    rewrite int_add_id by (unfold INT_MIN, INT_MAX; lia).
    rewrite int_rem_mod by lia.
    replace (head (ring vs) + capacity - count (ring vs) + 0)
      with (head (ring vs) - count (ring vs) + 1 * capacity) by lia.
    apply Z_mod_plus_full. }
  split; [lia | ]. split; [exact Hh | ]. split; [exact Hscan | ].
  split; [intros Hfull; rewrite Hscan, Hfull; reflexivity | ].
  exists vs. split; [reflexivity | ]. intros Hne.
  assert (0 < length vs)%nat as Hpos by (destruct vs; cbn; [congruence | lia]).
  rewrite <- Hslots by lia. f_equal. f_equal.
  rewrite Hhead, Zminus_mod_idemp_l. f_equal. lia.
Qed.

(** C10, as amended. For every state of the window that holds a value, the
    minimum and the maximum returned are among the values the window
    retains (the last [count] pushed); when none of these is a NaN they are
    its least and its greatest value, so minimum <= maximum. The average
    is the double-precision sum of the retained values, oldest first,
    divided by [count]. *)
Theorem min_max_of_window (b : circbuf_t) :
  reachable capacity b -> count b <> 0 ->
  let w := window capacity b in
  let r := compute b in
  (exists vs : list double, b = ring vs /\ w = drop (length vs - Z.to_nat capacity) vs) /\
  st_min r ∈ w /\ st_max r ∈ w /\
  st_avg r = (sum_in_order w / double_of_int (count b))%float /\
  (no_nan w = true ->
     least_of (st_min r) w /\ greatest_of (st_max r) w /\
     PrimFloat.leb (st_min r) (st_max r) = true).
Proof.
  intros Hb Hc. cbv zeta. apply reachable_pushes in Hb as [vs ->].
  set (w := window capacity (ring vs)).
  assert (vs <> []) as Hne by (intros ->; apply Hc; reflexivity).
  pose proof (slot0_retained vs Hne) as Hs0.
  pose proof (count_int vs) as Hci.
  pose proof (window_length capacity (ring vs)) as Hlen.
  fold w in Hs0, Hlen.
  assert (w <> []) as Hwne by (intros Hnil; rewrite Hnil in Hlen; cbn in Hlen; lia).
  rewrite compute_stats_window by exact Hci. fold w.
  rewrite (window_aggregate_fields _ w Hwne). cbn [st_avg st_min st_max st_count].
  rewrite Hlen, Z2Nat.id by lia.
  split.
  { exists vs. split; [reflexivity | ].
    apply window_pushes. }
  split; [apply (scan_members w _ Hs0) | ].
  split; [apply (scan_members w _ Hs0) | ].
  split; [reflexivity | ].
  intros Hnan. destruct (scan_least_greatest w _ Hs0 Hnan) as [Hleast Hgreatest].
  split; [exact Hleast | ]. split; [exact Hgreatest | ].
  destruct Hleast as [_ Hle]. apply Hle. apply (scan_members w _ Hs0).
Qed.

End RingFacts.

(** ** Runs of the server *)

Lemma run_app (tr1 tr2 : list action) (s : server) :
  run (tr1 ++ tr2) s = match run tr1 s with Some s' => run tr2 s' | None => None end.
Proof.
  revert s. induction tr1 as [ | a tr1 IH]; intros s; cbn.
  - reflexivity.
  - destruct (step a s); [apply IH | reflexivity].
Qed.

Lemma run_snoc (tr : list action) (a : action) (s s' : server) :
  run (tr ++ [a]) s = Some s' <-> exists s1, run tr s = Some s1 /\ step a s1 = Some s'.
Proof.
  rewrite run_app. destruct (run tr s) as [s1 | ]; cbn.
  - destruct (step a s1) as [s2 | ] eqn:Hstep.
    + split; [intros [= <-]; eauto | intros (x & [= <-] & Hx); congruence].
    + split; [discriminate | intros (x & [= <-] & Hx); congruence].
  - split; [discriminate | intros (x & Hx & _); discriminate].
Qed.

(** A property kept by every step of a kind is kept by a run of such steps. *)
Lemma run_preserves (P : server -> Prop) (ok : action -> bool) :
  (forall a s s', P s -> ok a = true -> step a s = Some s' -> P s') ->
  forall tr s s', forallb ok tr = true -> P s -> run tr s = Some s' -> P s'.
Proof.
  intros Hstep tr. induction tr as [ | a tr IH]; intros s s' Hok HP Hrun; cbn in *.
  - injection Hrun as <-. exact HP.
  - apply andb_true_iff in Hok as [Ha Htr].
    destruct (step a s) as [s1 | ] eqn:Hs; [ | discriminate].
    apply (IH s1 s' Htr); [exact (Hstep a s s1 HP Ha Hs) | exact Hrun].
Qed.

(** Every step, taken apart: what it needs and what it yields. *)
Ltac step_cases a s H :=
  unfold step, main, timer_thread in H;
  destruct a; destruct (listener s) eqn:?; destruct (timer s) eqn:?;
  try discriminate H;
  repeat match type of H with
         | context [if ?c then _ else _] => destruct c eqn:?; try discriminate H
         end;
  injection H as <-.

Lemma step_compute_inv (s s' : server) :
  step TimerCompute s = Some s' ->
  timer s = T_compute /\
  s' = set_timer s (T_write (buffer_compute_stats MAX_SAMPLES (buffer s))).
Proof.
  unfold step, timer_thread. destruct (timer s); try discriminate;
    intros [= <-]; split; reflexivity.
Qed.

Lemma step_write_inv (s s' : server) :
  step TimerWrite s = Some s' ->
  exists l : stats_t,
    timer s = T_write l /\
    s' = mk_server (buffer s)
           (Shm.mk (st_avg l) (st_min l) (st_max l) (st_count l) (clock s))
           (clock s) (listener s) (T_sleep (clock s + PERIOD_SECONDS))
           (out s ++ [LogStats (st_count l) (st_avg l) (st_min l) (st_max l)]).
Proof.
  unfold step, timer_thread. destruct (timer s) as [ | | l]; try discriminate;
    intros [= <-]; exists l; split; reflexivity.
Qed.


Lemma step_receive_fail (s : server) :
  listener s = L_receive -> step ReceiveFail s = Some (emit s (Perror "MsgReceive")).
Proof. intros Hl. unfold step, main. rewrite Hl. reflexivity. Qed.

Lemma holding_step (b : circbuf_t) (a : action) (s s' : server) :
  holding_inv b s -> quiet a = true -> step a s = Some s' -> holding_inv b s'.
Proof.
  intros [Hb Ht] Hq Hs. unfold holding_inv.
  step_cases a s Hs; cbn in *; try discriminate; try (split; congruence).
Qed.

Lemma idle_step (b : circbuf_t) (c : Z) (a : action) (s s' : server) :
  idle_inv b c s -> quiet a = true -> step a s = Some s' -> idle_inv b c s'.
Proof.
  intros (Hb & Hc & Ht) Hq Hs. unfold idle_inv, PERIOD_SECONDS in *.
  step_cases a s Hs; cbn in *; try discriminate;
    repeat match goal with
           | H : timer s = _ |- _ => rewrite H in *
           | H : (_ <=? _) = true |- _ => apply Z.leb_le in H
           end;
    try (repeat split; first [assumption | lia | tauto | congruence]).
Qed.

(** Only the reply step lets a [MsgReply] out, and it comes after the push
    of the reading it answers. *)
Lemma listener_progress (t0 : Z) (tr : list action) (s : server) :
  run tr (server_start t0) = Some s ->
  length (List.filter is_reply_out (out s)) = length (List.filter is_reply tr) /\
  length (List.filter is_push tr)
  = (length (List.filter is_reply tr) + pending (listener s))%nat /\
  pushed_inv (length (List.filter is_push tr)) s /\
  listener s <> L_cleanup /\
  NameDetach ∉ out s.
Proof.
  revert s. induction tr as [ | a tr IH] using rev_ind; intros s Hrun.
  - injection Hrun as <-. cbn. repeat split; try reflexivity; try discriminate.
    + exists []. repeat split.
    + intros Hin. repeat (apply elem_of_cons in Hin as [Hin | Hin]; [discriminate | ]).
      inversion Hin.
  - apply run_snoc in Hrun as (s1 & Hrun & Hs).
    destruct (IH s1 Hrun) as (Hout & Hcnt & (vs & Hlen & Hbuf & Hlast) & Hnc & Hnd).
    rewrite !List.filter_app, !length_app. unfold pushed_inv.
    step_cases a s1 Hs;
      unfold emit, set_listener, set_timer, reply_of, snprintf;
      cbn [out listener buffer List.filter is_reply is_push is_reply_out length pending];
      rewrite ?List.filter_app, ?length_app;
      cbn [out listener buffer List.filter is_reply is_push is_reply_out length pending].
    all: repeat match goal with
                | H : listener _ = _ |- _ => rewrite H in *
                end; cbn [pending] in *.
    all: try congruence.
    all: split; [lia | ]; split; [lia | ];
      split;
      [ first
          [ exists vs; split; [lia | split; [exact Hbuf | first [exact I | exact Hlast]]]
          | exists (vs ++ [temp rmsg]); split; [rewrite length_app; cbn; lia | ];
            split; [rewrite pushes_snoc, Hbuf; reflexivity | apply last_snoc] ]
      | ];
      split; [discriminate | ];
      rewrite ?not_elem_of_app, ?not_elem_of_cons; repeat split;
      first [assumption | discriminate | apply not_elem_of_nil].
Qed.

(** ** The reply *)

Lemma substring_all (n : nat) (text : string) :
  (String.length text <= n)%nat -> substring 0 n text = text.
Proof.
  revert n. induction text as [ | c text IH]; intros n Hn; destruct n; cbn in *;
    try reflexivity; try lia.
  rewrite IH by lia. reflexivity.
Qed.

Lemma substring_length (n : nat) (text : string) :
  (n <= String.length text)%nat -> String.length (substring 0 n text) = n.
Proof.
  revert n. induction text as [ | c text IH]; intros n Hn; destruct n; cbn in *;
    try reflexivity; try lia.
  rewrite IH by lia. reflexivity.
Qed.

(** A text of 128 characters or more is cut to 127, and [MsgReply] is given
    the length of the whole text plus one. *)
Lemma reply_of_long_text (rcvid : Z) (rmsg : temp_msg_t) :
  let text := ack_text (temp rmsg) (pid rmsg) in
  (REPLY_SIZE <= String.length text)%nat ->
  Z.of_nat (String.length text) < INT_MAX ->
  String.length (reply_text (reply_of rcvid rmsg)) = 127%nat /\
  reply_nbytes (reply_of rcvid rmsg) = Z.of_nat (String.length text) + 1 /\
  Z.of_nat REPLY_SIZE < reply_nbytes (reply_of rcvid rmsg).
Proof.
  cbv zeta. unfold reply_of, snprintf, REPLY_SIZE, INT_MAX. intros Hlong Hint.
  cbn [reply_text reply_nbytes].
  rewrite substring_length by lia.
  rewrite int_add_id by (unfold INT_MIN, INT_MAX; lia).
  repeat split; lia.
Qed.

Lemma all_ascii7_app (s t : string) :
  all_ascii7 (s ++ t) = all_ascii7 s && all_ascii7 t.
Proof.
  induction s as [ | c s IH]; cbn [append all_ascii7].
  - reflexivity.
  - rewrite IH. apply andb_assoc.
Qed.

Lemma string_of_uint_ascii (d : Decimal.uint) :
  all_ascii7 (NilEmpty.string_of_uint d) = true.
Proof. induction d; cbn; auto. Qed.

Lemma fmt_d_ascii (z : Z) : all_ascii7 (fmt_d z) = true.
Proof.
  unfold fmt_d, NilZero.string_of_int, NilZero.string_of_uint.
  destruct (Z.to_int z) as [d | d].
  - destruct d; try reflexivity; apply (string_of_uint_ascii (_ d)).
  - cbn [all_ascii7]. destruct d; try reflexivity; apply (string_of_uint_ascii (_ d)).
Qed.

Lemma fmt_f3_ascii (x : double) : all_ascii7 (fmt_f3 x) = true.
Proof.
  assert (forall neg n, all_ascii7 (fmt_fixed3 neg n) = true) as Hfixed.
  { intros neg n. unfold fmt_fixed3, pad3.
    rewrite !all_ascii7_app, !fmt_d_ascii. destruct neg; reflexivity. }
  unfold fmt_f3. destruct (Prim2SF x) as [s | s | | s m e]; try apply Hfixed.
  - destruct s; reflexivity.
  - reflexivity.
Qed.

Lemma ack_text_ascii (t : double) (p : Z) : all_ascii7 (ack_text t p) = true.
Proof.
  unfold ack_text. rewrite !all_ascii7_app, fmt_f3_ascii, fmt_d_ascii. reflexivity.
Qed.

(** C3, as amended. For every accepted reading whose acknowledgment
    ["ACK: received %.3f from pid %d"] has fewer than 128 characters, the
    reply is that text followed by its NUL: [reply_msg] holds the whole
    text, which is ASCII, and [MsgReply] is given its length plus one,
    within the buffer. *)
Theorem reply_text_when_it_fits (rcvid : Z) (rmsg : temp_msg_t) :
  (String.length (ack_text (temp rmsg) (pid rmsg)) < REPLY_SIZE)%nat ->
  reply_of rcvid rmsg
  = MsgReply rcvid EOK (ack_text (temp rmsg) (pid rmsg))
      (Z.of_nat (String.length (ack_text (temp rmsg) (pid rmsg))) + 1) /\
  all_ascii7 (ack_text (temp rmsg) (pid rmsg)) = true /\
  Z.of_nat (String.length (ack_text (temp rmsg) (pid rmsg))) + 1 <= Z.of_nat REPLY_SIZE.
Proof.
  intros Hfit. unfold reply_of, snprintf. unfold REPLY_SIZE in *.
  rewrite substring_all by lia.
  rewrite int_add_id by (unfold INT_MIN, INT_MAX; lia).
  split; [reflexivity | ]. split; [apply ack_text_ascii | lia].
Qed.

(** ** The publisher *)

(** C5, as amended. Take two consecutive publications of the timer thread,
    with no push into the window from the moment the first one computed its
    aggregate until the second one is written: the second writes the same
    average, minimum, maximum and count as the first, and a [last_updated]
    that is later by one period at least. *)
Theorem idle_period_republishes (s s1 s2 : server) (tr1 tr2 : list action) :
  run (TimerCompute :: tr1 ++ [TimerWrite]) s = Some s1 ->
  run (tr2 ++ [TimerWrite]) s1 = Some s2 ->
  forallb quiet (tr1 ++ tr2) = true ->
  Shm.numeric (shm_stats s2) = Shm.numeric (shm_stats s1) /\
  Shm.last_updated (shm_stats s1) < Shm.last_updated (shm_stats s2) /\
  Shm.last_updated (shm_stats s1) + PERIOD_SECONDS <= Shm.last_updated (shm_stats s2).
Proof.
  intros Hrun1 Hrun2 Hquiet.
  rewrite forallb_app in Hquiet. apply andb_true_iff in Hquiet as [Hq1 Hq2].
  change (TimerCompute :: tr1 ++ [TimerWrite])
    with (([TimerCompute] ++ tr1) ++ [TimerWrite]) in Hrun1.
  apply run_snoc in Hrun1 as (sb & Hrun1 & Hw1).
  cbn [app run] in Hrun1.
  destruct (step TimerCompute s) as [sa | ] eqn:Hc; [ | discriminate].
  apply run_snoc in Hrun2 as (sc & Hrun2 & Hw2).
  apply step_compute_inv in Hc as [_ ->].
  set (b := buffer s) in *.
  assert (holding_inv b sb) as [Hbb Htb].
  { eapply (run_preserves (holding_inv b) quiet (holding_step b));
      [exact Hq1 | | exact Hrun1]. split; reflexivity. }
  apply step_write_inv in Hw1 as (l1 & Hl1 & ->).
  rewrite Htb in Hl1. injection Hl1 as <-.
  apply step_write_inv in Hw2 as (l2 & Hl2 & ->).
  match type of Hrun2 with run tr2 ?st = _ => set (s1 := st) in * end.
  assert (idle_inv b (clock sb) sc) as (Hbc & Hcc & Htc).
  { eapply (run_preserves (idle_inv b (clock sb)) quiet (idle_step b (clock sb)));
      [exact Hq2 | | exact Hrun2].
    unfold idle_inv, s1. cbn [buffer clock timer]. repeat split; first [assumption | lia]. }
  rewrite Hl2 in Htc. destruct Htc as [Hlate ->]. unfold PERIOD_SECONDS in *.
  unfold s1. cbn [shm_stats Shm.numeric Shm.avg Shm.minimum Shm.maximum Shm.count
                  Shm.last_updated].
  split; [reflexivity | lia].
Qed.

(** ** The listener *)

(** C6. No step of the listener changes the average, the minimum, the
    maximum or the count in shared memory: the update it makes for an
    accepted reading stores the time of the call in [last_updated] and
    nothing else, and its other steps leave the whole block as it is. *)
Theorem listener_touches_timestamp_only (s s' : server) (a : action) :
  listener_action a = true ->
  step a s = Some s' ->
  Shm.numeric (shm_stats s') = Shm.numeric (shm_stats s) /\
  (a = ListenerTouch -> Shm.last_updated (shm_stats s') = clock s) /\
  (a <> ListenerTouch -> shm_stats s' = shm_stats s).
Proof.
  intros Ha Hs.
  step_cases a s Hs; cbn in *; try discriminate;
    repeat split; first [reflexivity | congruence].
Qed.


(** C8. When [MsgReceive] fails, and however many times in a row, the
    listener writes the error line and is back at [MsgReceive]: the window,
    the shared block, the clock and the timer are as before, the output has
    gained the error lines and nothing else (no reply), the next request is
    received as usual, and the channel was never detached. *)
Theorem receive_failure_only_logs (t0 : Z) (tr : list action) (s : server) (n : nat) :
  run tr (server_start t0) = Some s ->
  listener s = L_receive ->
  let s' := mk_server (buffer s) (shm_stats s) (clock s) L_receive (timer s)
              (out s ++ replicate n (Perror "MsgReceive")) in
  run (replicate n ReceiveFail) s = Some s' /\
  (forall (rcvid : Z) (rmsg : temp_msg_t),
     rcvid <> -1 -> is_Some (step (Receive rcvid rmsg) s')) /\
  NameDetach ∉ out s'.
Proof.
  intros Hrun Hl. cbv zeta.
  destruct (listener_progress t0 tr s Hrun) as (_ & _ & _ & _ & Hnd).
  split; [ | split].
  - clear Hrun Hnd. revert s Hl. induction n as [ | n IH]; intros s Hl.
    + cbn. rewrite app_nil_r, <- Hl. destruct s; reflexivity.
    + cbn [replicate run]. rewrite (step_receive_fail s Hl).
      rewrite IH by exact Hl. cbn [emit buffer shm_stats clock timer out].
      rewrite <- app_assoc. reflexivity.
  - intros rcvid rmsg Hne. unfold step, main. cbn [listener].
    destruct (Z.eqb_spec rcvid (-1)) as [-> | _]; [congruence | ].
    eexists; reflexivity.
  - cbn [out]. rewrite not_elem_of_app. split; [exact Hnd | ].
    intros Hin. apply elem_of_replicate in Hin as [Hin _]. discriminate.
Qed.

(** ** The specification's examples, and where its sentences stop *)

Example three_readings :
  buffer_compute_stats MAX_SAMPLES (pushes MAX_SAMPLES [20; 25; 30]%float)
  = (mk_stats 25 20 30 3)%float.
Proof. vm_compute. reflexivity. Qed.

Example three_slots :
  buffer_compute_stats 3 (pushes 3 [1; 2; 3; 4]%float) = (mk_stats 3 2 4 3)%float.
Proof. vm_compute. reflexivity. Qed.

(** 1025 pushes into the 1024 slots: the first value is gone. *)
Example first_value_evicted :
  buffer_compute_stats MAX_SAMPLES (pushes MAX_SAMPLES (1 :: replicate 1024 2)%float)
  = (mk_stats 2 2 2 1024)%float.
Proof. vm_compute. reflexivity. Qed.

Example empty_window :
  buffer_compute_stats MAX_SAMPLES (pushes MAX_SAMPLES []) = stats_zero.
Proof. vm_compute. reflexivity. Qed.

(** C1 at the specification's example: 20, 25 and 30 pushed into the 1024
    slots. *)
Lemma aggregate_within_capacity_witness :
  let vs := [20; 25; 30]%float in
  Z.of_nat (length vs) <= MAX_SAMPLES /\
  let r := buffer_compute_stats MAX_SAMPLES (pushes MAX_SAMPLES vs) in
  st_count r = Z.of_nat (length vs) /\
  (vs = [] -> r = stats_zero) /\
  (vs <> [] ->
     st_avg r = (sum_in_order vs / double_of_int (Z.of_nat (length vs)))%float /\
     st_min r ∈ vs /\ st_max r ∈ vs /\
     (no_nan vs = true -> least_of (st_min r) vs /\ greatest_of (st_max r) vs)).
Proof.
  cbv zeta. split; [vm_compute; discriminate | ].
  apply (aggregate_within_capacity MAX_SAMPLES);
    [reflexivity | vm_compute; discriminate | vm_compute; discriminate].
Defined.

(** C1 as written fails on doubles: after the pushes 1e16, 1, -1e16 the
    average returned is 0 (the 1 is absorbed by the first addition), the
    mean of the three values is 1/3, and the same three values pushed in
    another order give another average. With a NaN among the values the
    minimum and the maximum depend on the order too: a NaN pushed first is
    returned as both, a NaN pushed later is passed over. *)
Lemma average_not_exact :
  let vs := [1e16; 1; -1e16]%float in
  let r := buffer_compute_stats MAX_SAMPLES (pushes MAX_SAMPLES vs) in
  Z.of_nat (length vs) <= MAX_SAMPLES /\
  st_avg r = 0%float /\
  option_map (Qeq_bool (1 # 3)) (exact_mean vs) = Some true /\
  is_exact_mean (st_avg r) vs = false /\
  st_avg (buffer_compute_stats MAX_SAMPLES (pushes MAX_SAMPLES [1e16; -1e16; 1]%float))
  = 0.3333333333333333%float /\
  st_min (buffer_compute_stats MAX_SAMPLES (pushes MAX_SAMPLES [nan; 1]%float)) = nan /\
  st_min (buffer_compute_stats MAX_SAMPLES (pushes MAX_SAMPLES [1; nan]%float)) = 1%float.
Proof. vm_compute. repeat split; try reflexivity. discriminate. Qed.

(** C2 at the specification's example: four pushes into three slots. *)
Lemma aggregate_beyond_capacity_witness :
  let vs := [1; 2; 3; 4]%float in
  3 < Z.of_nat (length vs) /\
  let w := drop (length vs - Z.to_nat 3) vs in
  let r := buffer_compute_stats 3 (pushes 3 vs) in
  length w = Z.to_nat 3 /\
  st_count r = 3 /\
  st_avg r = (sum_in_order w / double_of_int 3)%float /\
  st_min r ∈ w /\ st_max r ∈ w /\
  (no_nan w = true -> least_of (st_min r) w /\ greatest_of (st_max r) w) /\
  (forall vs' : list double,
     3 < Z.of_nat (length vs') ->
     drop (length vs' - Z.to_nat 3) vs' = w ->
     let r' := buffer_compute_stats 3 (pushes 3 vs') in
     st_count r' = st_count r /\
     st_avg r' = st_avg r /\
     st_min r' ∈ w /\ st_max r' ∈ w /\
     (no_nan w = true ->
      PrimFloat.eqb (st_min r') (st_min r) = true /\
      PrimFloat.eqb (st_max r') (st_max r) = true) /\
     (length vs' = length vs -> r' = r)).
Proof.
  cbv zeta. split; [reflexivity | ].
  apply (aggregate_beyond_capacity 3);
    [reflexivity | vm_compute; discriminate | reflexivity].
Defined.

(** C2 as written fails: the aggregate does not reflect the last
    [capacity] values only. The running minimum and maximum start from
    [samples[0]], and which of the retained values lies there depends on
    the number of pushes. With three slots, [1; 2; 3; nan] and
    [0; 1; 2; 3; nan] both retain [2; 3; nan]; the first has the NaN in
    slot 0 and returns it as minimum and maximum, the second has 3 there
    and returns 2 and 3. With the 1024 slots of the source, 1025 and 1026
    pushes that end on the same 1024 values, the last a NaN, return NaN and
    1. Without any NaN, [9; 0; -0; 1] and [9; 9; 0; -0; 1] both retain
    [0; -0; 1] and return the minima [+0] and [-0], which are [==] and not
    the same double. *)
Lemma same_recent_values_other_aggregate :
  let compute3 := fun vs => buffer_compute_stats 3 (pushes 3 vs) in
  let compute := fun vs => buffer_compute_stats MAX_SAMPLES (pushes MAX_SAMPLES vs) in
  let vs := [1; 2; 3; nan]%float in
  let vs' := [0; 1; 2; 3; nan]%float in
  let w := (replicate 1023 1 ++ [nan])%float in
  let zs := [9; 0; -0; 1]%float in
  let zs' := [9; 9; 0; -0; 1]%float in
  (3 < Z.of_nat (length vs) /\ 3 < Z.of_nat (length vs') /\
   drop (length vs - 3) vs = drop (length vs' - 3) vs' /\
   compute3 vs = mk_stats nan nan nan 3 /\
   compute3 vs' = mk_stats nan 2 3 3) /\
  (MAX_SAMPLES < Z.of_nat (length (0%float :: w)) /\
   MAX_SAMPLES < Z.of_nat (length (0%float :: 0%float :: w)) /\
   drop (length (0%float :: w) - 1024) (0%float :: w) = w /\
   drop (length (0%float :: 0%float :: w) - 1024) (0%float :: 0%float :: w) = w /\
   st_min (compute (0%float :: w)) = nan /\
   st_max (compute (0%float :: w)) = nan /\
   st_min (compute (0%float :: 0%float :: w)) = 1%float /\
   st_max (compute (0%float :: 0%float :: w)) = 1%float) /\
  (3 < Z.of_nat (length zs) /\ 3 < Z.of_nat (length zs') /\
   drop (length zs - 3) zs = drop (length zs' - 3) zs' /\
   no_nan zs = true /\ no_nan zs' = true /\
   Prim2SF (st_min (compute3 zs)) = S754_zero false /\
   Prim2SF (st_min (compute3 zs')) = S754_zero true /\
   compute3 zs <> compute3 zs').
Proof.
  cbv zeta. split; [ | split].
  - vm_compute. repeat split; reflexivity.
  - vm_compute. repeat split; reflexivity.
  - split; [reflexivity | ]. split; [reflexivity | ]. split; [reflexivity | ].
    split; [reflexivity | ]. split; [reflexivity | ].
    split; [vm_compute; reflexivity | ]. split; [vm_compute; reflexivity | ].
    intros Heq. apply (f_equal (fun r => Prim2SF (st_min r))) in Heq.
    vm_compute in Heq. discriminate Heq.
Qed.

(** C4 after two pushes into the 1024 slots. *)
Lemma oldest_is_count_behind_witness :
  let b := pushes MAX_SAMPLES [20; 25]%float in
  reachable MAX_SAMPLES b /\
  0 <= count b <= MAX_SAMPLES /\
  0 <= head b < MAX_SAMPLES /\
  scan_index MAX_SAMPLES b 0 = (head b - count b) mod MAX_SAMPLES /\
  (count b = MAX_SAMPLES ->
   scan_index MAX_SAMPLES b 0 = (head b - MAX_SAMPLES) mod MAX_SAMPLES) /\
  exists vs : list double,
    b = pushes MAX_SAMPLES vs /\
    (vs <> [] ->
     samples b !! Z.to_nat ((head b - count b) mod MAX_SAMPLES)
     = vs !! (length vs - Z.to_nat (count b))%nat).
Proof.
  cbv zeta.
  assert (reachable MAX_SAMPLES (pushes MAX_SAMPLES [20; 25]%float)) as Hb
    by (apply reachable_pushes; eexists; reflexivity).
  split; [exact Hb | ].
  apply (oldest_is_count_behind MAX_SAMPLES);
    [reflexivity | vm_compute; discriminate | exact Hb].
Defined.

(** C4 as written fails while the window fills: after two pushes the oldest
    value is in slot 0, two slots behind [head]; the slot [capacity] behind
    [head] is slot 2, which was never written. *)
Lemma oldest_not_capacity_behind :
  let b := pushes MAX_SAMPLES [20; 25]%float in
  reachable MAX_SAMPLES b /\
  head b = 2 /\ count b = 2 /\
  (head b - MAX_SAMPLES) mod MAX_SAMPLES = 2 /\
  scan_index MAX_SAMPLES b 0 = 0 /\
  samples b !! 0%nat = Some 20%float /\
  samples b !! 2%nat = Some 0%float.
Proof.
  cbv zeta. split; [apply reachable_pushes; eexists; reflexivity | ].
  vm_compute. repeat split; reflexivity.
Qed.

(** C10 on the window that holds 20, 25 and 30. *)
Lemma min_max_of_window_witness :
  let b := pushes MAX_SAMPLES [20; 25; 30]%float in
  reachable MAX_SAMPLES b /\ count b <> 0 /\
  let w := window MAX_SAMPLES b in
  let r := buffer_compute_stats MAX_SAMPLES b in
  (exists vs : list double,
     b = pushes MAX_SAMPLES vs /\ w = drop (length vs - Z.to_nat MAX_SAMPLES) vs) /\
  st_min r ∈ w /\ st_max r ∈ w /\
  st_avg r = (sum_in_order w / double_of_int (count b))%float /\
  (no_nan w = true ->
     least_of (st_min r) w /\ greatest_of (st_max r) w /\
     PrimFloat.leb (st_min r) (st_max r) = true).
Proof.
  cbv zeta.
  assert (reachable MAX_SAMPLES (pushes MAX_SAMPLES [20; 25; 30]%float)) as Hb
    by (apply reachable_pushes; eexists; reflexivity).
  split; [exact Hb | ]. split; [vm_compute; discriminate | ].
  apply (min_max_of_window MAX_SAMPLES);
    [reflexivity | vm_compute; discriminate | exact Hb | vm_compute; discriminate].
Defined.

(** C10 as written fails on doubles: three readings of 0.1 have the
    average 0.10000000000000002, above the maximum 0.1, and three readings
    of -0.1 have an average below the minimum. A window whose slot 0 holds
    a NaN returns it as minimum and maximum, and no order relates them. *)
Lemma average_outside_min_max :
  let b := pushes MAX_SAMPLES [0.1; 0.1; 0.1]%float in
  let r := buffer_compute_stats MAX_SAMPLES b in
  let r' := buffer_compute_stats MAX_SAMPLES (pushes MAX_SAMPLES [-0.1; -0.1; -0.1]%float) in
  let rn := buffer_compute_stats MAX_SAMPLES (pushes MAX_SAMPLES [nan; 1]%float) in
  reachable MAX_SAMPLES b /\ count b = 3 /\
  r = (mk_stats 0.10000000000000002 0.1 0.1 3)%float /\
  PrimFloat.ltb (st_max r) (st_avg r) = true /\
  PrimFloat.leb (st_avg r) (st_max r) = false /\
  PrimFloat.leb (st_min r') (st_avg r') = false /\
  PrimFloat.leb (st_min rn) (st_max rn) = false.
Proof.
  cbv zeta. split; [apply reachable_pushes; eexists; reflexivity | ].
  vm_compute. repeat split; reflexivity.
Qed.

(** C3 at the specification's example: producer 7 sends 22.5. *)
Lemma reply_text_when_it_fits_witness :
  let rmsg := mk_temp_msg 1 7 22.5 in
  ack_text (temp rmsg) (pid rmsg) = "ACK: received 22.500 from pid 7"%string /\
  (String.length (ack_text (temp rmsg) (pid rmsg)) < REPLY_SIZE)%nat /\
  reply_of 4 rmsg
  = MsgReply 4 EOK (ack_text (temp rmsg) (pid rmsg))
      (Z.of_nat (String.length (ack_text (temp rmsg) (pid rmsg))) + 1) /\
  all_ascii7 (ack_text (temp rmsg) (pid rmsg)) = true /\
  Z.of_nat (String.length (ack_text (temp rmsg) (pid rmsg))) + 1 <= Z.of_nat REPLY_SIZE.
Proof.
  cbv zeta.
  assert (String.length (ack_text 22.5 7) < REPLY_SIZE)%nat as Hfit
    by (vm_compute; lia).
  split; [vm_compute; reflexivity | ]. split; [exact Hfit | ].
  apply (reply_text_when_it_fits 4 (mk_temp_msg 1 7 22.5) Hfit).
Defined.

(** C3 as written fails for a reading whose text does not fit: for the
    temperature 1e308 the text has 338 characters and [reply_msg] holds the
    first 127 of them. *)
Lemma reply_text_truncated :
  let rmsg := mk_temp_msg 1 7 1e308 in
  String.length (ack_text (temp rmsg) (pid rmsg)) = 338%nat /\
  String.length (reply_text (reply_of 4 rmsg)) = 127%nat /\
  reply_text (reply_of 4 rmsg) <> ack_text (temp rmsg) (pid rmsg).
Proof.
  vm_compute. repeat split; try reflexivity. discriminate.
Qed.

(** C9: the length given to [MsgReply] is what [snprintf] returned plus one,
    not what it stored: for the temperature 1e308 it is 339, past the 128
    bytes of [reply_msg]. *)
Lemma reply_length_overruns :
  reply_nbytes (reply_of 4 (mk_temp_msg 1 7 1e308)) = 339 /\
  Z.of_nat REPLY_SIZE < reply_nbytes (reply_of 4 (mk_temp_msg 1 7 1e308)).
Proof. vm_compute. split; reflexivity. Qed.

(** C5 as written fails when a reading slips in between the two critical
    sections of a cycle: the timer computes the aggregate of three values,
    a fourth is received, pushed and answered, the timer writes its three-
    value aggregate, and one period later, nothing pushed since that
    write, it writes the aggregate of four. *)
Lemma publish_race :
  let m := mk_temp_msg 1 7 35 in
  let s := mk_server (pushes MAX_SAMPLES [20; 25; 30]%float) (Shm.mk 0 0 0 0 1000)
             1005 L_receive T_compute [] in
  let tr1 := [Receive 4 m; ListenerPush; ListenerTouch; ListenerReply] in
  let tr2 := [Tick 5; TimerWake; TimerCompute] in
  let s1 := default s (run (TimerCompute :: tr1 ++ [TimerWrite]) s) in
  let s2 := default s1 (run (tr2 ++ [TimerWrite]) s1) in
  run (TimerCompute :: tr1 ++ [TimerWrite]) s = Some s1 /\
  run (tr2 ++ [TimerWrite]) s1 = Some s2 /\
  forallb (fun a => negb (is_push a)) tr2 = true /\
  clock s2 - clock s1 = PERIOD_SECONDS /\
  Shm.numeric (shm_stats s1) = (25%float, 20%float, 30%float, 3) /\
  Shm.numeric (shm_stats s2) = (27.5%float, 20%float, 35%float, 4).
Proof. vm_compute. repeat split; reflexivity. Qed.

(** C5 on a run where two receive failures and five seconds lie between
    two publications of the same three values. *)
Lemma idle_period_republishes_witness :
  let s := mk_server (pushes MAX_SAMPLES [20; 25; 30]%float) (Shm.mk 0 0 0 0 1000)
             1005 L_receive T_compute [] in
  let tr1 := [ReceiveFail] in
  let tr2 := [Tick 2; ReceiveFail; Tick 3; TimerWake; TimerCompute] in
  let s1 := default s (run (TimerCompute :: tr1 ++ [TimerWrite]) s) in
  let s2 := default s1 (run (tr2 ++ [TimerWrite]) s1) in
  run (TimerCompute :: tr1 ++ [TimerWrite]) s = Some s1 /\
  run (tr2 ++ [TimerWrite]) s1 = Some s2 /\
  forallb quiet (tr1 ++ tr2) = true /\
  Shm.numeric (shm_stats s2) = Shm.numeric (shm_stats s1) /\
  Shm.last_updated (shm_stats s1) < Shm.last_updated (shm_stats s2) /\
  Shm.last_updated (shm_stats s1) + PERIOD_SECONDS <= Shm.last_updated (shm_stats s2).
Proof.
  intros s tr1 tr2 s1 s2.
  assert (run (TimerCompute :: tr1 ++ [TimerWrite]) s = Some s1) as H1
    by (vm_compute; reflexivity).
  assert (run (tr2 ++ [TimerWrite]) s1 = Some s2) as H2 by (vm_compute; reflexivity).
  assert (forallb quiet (tr1 ++ tr2) = true) as H3 by (vm_compute; reflexivity).
  split; [exact H1 | ]. split; [exact H2 | ]. split; [exact H3 | ].
  exact (idle_period_republishes s s1 s2 tr1 tr2 H1 H2 H3).
Defined.

(** C6 on the update for a reading received at time 1007. *)
Lemma listener_touches_timestamp_only_witness :
  let s := mk_server (pushes MAX_SAMPLES [20; 25; 30]%float) (Shm.mk 22.5 20 25 2 1000)
             1007 (L_touch 4 (mk_temp_msg 1 7 30)) (T_sleep 1010) [] in
  let s' := mk_server (buffer s) (Shm.mk 22.5 20 25 2 1007)
              1007 (L_reply 4 (mk_temp_msg 1 7 30)) (T_sleep 1010) [] in
  listener_action ListenerTouch = true /\
  step ListenerTouch s = Some s' /\
  Shm.numeric (shm_stats s') = Shm.numeric (shm_stats s) /\
  (ListenerTouch = ListenerTouch -> Shm.last_updated (shm_stats s') = clock s) /\
  (ListenerTouch <> ListenerTouch -> shm_stats s' = shm_stats s).
Proof.
  intros s s'.
  assert (step ListenerTouch s = Some s') as Hs by (vm_compute; reflexivity).
  split; [reflexivity | ]. split; [exact Hs | ].
  exact (listener_touches_timestamp_only s s' ListenerTouch eq_refl Hs).
Defined.


(** C8 on three failures in a row right after the start. *)
Lemma receive_failure_only_logs_witness :
  let s := server_start 1000 in
  run [] (server_start 1000) = Some s /\
  listener s = L_receive /\
  let s' := mk_server (buffer s) (shm_stats s) (clock s) L_receive (timer s)
              (out s ++ replicate 3 (Perror "MsgReceive")) in
  run (replicate 3 ReceiveFail) s = Some s' /\
  (forall (rcvid : Z) (rmsg : temp_msg_t),
     rcvid <> -1 -> is_Some (step (Receive rcvid rmsg) s')) /\
  NameDetach ∉ out s'.
Proof.
  intros s. split; [reflexivity | ]. split; [reflexivity | ].
  exact (receive_failure_only_logs 1000 [] s 3 eq_refl eq_refl).
Defined.

(** * Further properties of the code *)

(** ** The ring *)

Section RingMore.

Variable capacity : Z.
Hypothesis capacity_pos : 0 < capacity.
Hypothesis capacity_int : 2 * capacity <= 2 ^ 31.

#[local] Abbreviation ring := (pushes capacity).
#[local] Abbreviation compute := (buffer_compute_stats capacity).

Lemma st_count_pushes (vs : list double) :
  st_count (compute (ring vs)) = Z.min (Z.of_nat (length vs)) capacity.
Proof.
  rewrite (compute_stats_pushes capacity capacity_pos capacity_int).
  assert (st_count (window_aggregate (sample_at (ring vs) 0)
                      (drop (length vs - Z.to_nat capacity) vs))
          = Z.of_nat (length (drop (length vs - Z.to_nat capacity) vs))) as ->
    by (destruct (drop _ vs); reflexivity).
  rewrite length_drop. lia.
Qed.

(** X1. After [N] pushes into the initialised buffer the write position is
    [N mod capacity], the count is [min N capacity], the array still has
    [capacity] slots, and the scan reads the last [min N capacity] values
    pushed, in the order they were pushed. *)
Theorem ring_after_pushes (vs : list double) :
  let b := ring vs in
  head b = Z.of_nat (length vs) mod capacity /\
  count b = Z.min (Z.of_nat (length vs)) capacity /\
  length (samples b) = Z.to_nat capacity /\
  window capacity b = drop (length vs - Z.to_nat capacity) vs /\
  length (window capacity b) = Nat.min (length vs) (Z.to_nat capacity).
Proof.
  cbv zeta. destruct (pushes_inv capacity capacity_pos capacity_int vs) as [Hlen Hhead Hcount _].
  split; [exact Hhead | ]. split; [exact Hcount | ]. split; [exact Hlen | ].
  rewrite (window_pushes capacity capacity_pos capacity_int).
  split; [reflexivity | ]. rewrite length_drop. lia.
Qed.

(** X2. A push appends its value to the window; when the window is full the
    oldest value leaves at the same time, and nothing else moves. *)
Theorem push_slides_window (b : circbuf_t) (v : double) :
  reachable capacity b ->
  window capacity (buffer_push capacity b v)
  = (if count b <? capacity then window capacity b else tail (window capacity b)) ++ [v].
Proof.
  intros Hb. apply (reachable_pushes capacity) in Hb as [vs ->].
  destruct (pushes_inv capacity capacity_pos capacity_int vs) as [_ _ Hcount _].
  rewrite <- pushes_snoc.
  rewrite !(window_pushes capacity capacity_pos capacity_int).
  rewrite length_app. cbn [length].
  destruct (Z.ltb_spec (count (ring vs)) capacity) as [Hlt | Hge].
  - replace (length vs + 1 - Z.to_nat capacity)%nat with 0%nat by lia.
    replace (length vs - Z.to_nat capacity)%nat with 0%nat by lia.
    reflexivity.
  - rewrite drop_app_le by lia.
    replace (length vs + 1 - Z.to_nat capacity)%nat
      with (S (length vs - Z.to_nat capacity)) by lia.
    f_equal. generalize (length vs - Z.to_nat capacity)%nat. clear.
    intros k. revert vs. induction k as [ | k IH]; intros [ | x vs]; cbn; auto.
Qed.

(** X3. No access of the ring leaves the array and no [int] operation of
    the ring wraps, in every state reached by pushes, the empty one
    included. The array has [capacity] slots, [head] is in [0, capacity)
    and [count] in [0, capacity]; [samples[head]], which the next push
    writes, and [samples[0]], from which a scan starts its minimum and
    maximum, are slots of the array; [head + 1] and [count + 1] of
    [buffer_push] are the mathematical sums, so [head] becomes
    [(head + 1) mod capacity] and [count] becomes [min (count + 1) capacity].
    For every iteration [i] of the scan, [head + MAX_SAMPLES],
    [- count], [+ i] and [++i] are the mathematical results, the index is
    [(head + capacity - count + i) mod capacity], it lies in [0, capacity),
    and the slot read exists. *)
Theorem ring_accesses_in_bounds (b : circbuf_t) :
  reachable capacity b ->
  length (samples b) = Z.to_nat capacity /\
  0 <= head b < capacity /\
  0 <= count b <= capacity /\
  is_Some (samples b !! Z.to_nat (head b)) /\
  is_Some (samples b !! 0%nat) /\
  int_add (head b) 1 = head b + 1 /\
  (count b < capacity -> int_add (count b) 1 = count b + 1) /\
  (forall v : double,
     head (buffer_push capacity b v) = (head b + 1) mod capacity /\
     count (buffer_push capacity b v) = Z.min (count b + 1) capacity) /\
  (forall i : Z,
     0 <= i < count b ->
     int_add (head b) capacity = head b + capacity /\
     int_sub (head b + capacity) (count b) = head b + capacity - count b /\
     int_add (head b + capacity - count b) i = head b + capacity - count b + i /\
     int_add i 1 = i + 1 /\
     scan_index capacity b i = (head b + capacity - count b + i) mod capacity /\
     0 <= scan_index capacity b i < capacity /\
     is_Some (samples b !! Z.to_nat (scan_index capacity b i))).
Proof.
  intros Hb. apply (reachable_pushes capacity) in Hb as [vs ->].
  destruct (pushes_inv capacity capacity_pos capacity_int vs) as [Hlen Hhead Hcount _].
  assert (0 <= head (ring vs) < capacity) as Hh
    by (rewrite Hhead; apply Z.mod_pos_bound; lia).
  assert (0 <= count (ring vs) <= capacity) as Hc by lia.
  assert (int_add (head (ring vs)) 1 = head (ring vs) + 1) as Hh1
    by (apply int_add_id; unfold INT_MIN, INT_MAX; lia).
  assert (count (ring vs) < capacity -> int_add (count (ring vs)) 1 = count (ring vs) + 1)
    as Hc1 by (intros Hlt; apply int_add_id; unfold INT_MIN, INT_MAX; lia).
  split; [exact Hlen | ]. split; [exact Hh | ]. split; [exact Hc | ].
  split; [apply lookup_lt_is_Some_2; lia | ].
  split; [apply lookup_lt_is_Some_2; lia | ].
  split; [exact Hh1 | ]. split; [exact Hc1 | ].
  split.
  - intros v. cbn [buffer_push head count]. rewrite Hh1.
    split; [apply int_rem_mod; lia | ].
    destruct (Z.ltb_spec (count (ring vs)) capacity) as [Hlt | Hge];
      [rewrite (Hc1 Hlt) | ]; lia.
  - intros i Hi.
    assert (int_add (head (ring vs)) capacity = head (ring vs) + capacity) as H1
      by (apply int_add_id; unfold INT_MIN, INT_MAX; lia).
    assert (int_sub (head (ring vs) + capacity) (count (ring vs))
            = head (ring vs) + capacity - count (ring vs)) as H2
      by (apply int_sub_id; unfold INT_MIN, INT_MAX; lia).
    assert (int_add (head (ring vs) + capacity - count (ring vs)) i
            = head (ring vs) + capacity - count (ring vs) + i) as H3
      by (apply int_add_id; unfold INT_MIN, INT_MAX; lia).
    assert (scan_index capacity (ring vs) i
            = (head (ring vs) + capacity - count (ring vs) + i) mod capacity) as Hscan
      by (unfold scan_index; rewrite H1, H2, H3; apply int_rem_mod; lia).
    assert (0 <= scan_index capacity (ring vs) i < capacity) as Hrange
      by (rewrite Hscan; apply Z.mod_pos_bound; lia).
    split; [exact H1 | ]. split; [exact H2 | ]. split; [exact H3 | ].
    split; [apply int_add_id; unfold INT_MIN, INT_MAX; lia | ].
    split; [exact Hscan | ]. split; [exact Hrange | ].
    apply lookup_lt_is_Some_2. lia.
Qed.

(** X4. Within the capacity and without NaN, the order of the pushes does not
    matter to the count, the minimum and the maximum: two orders of the same
    values give the same count and equal extremes ([==] on doubles, which
    does not tell the two zeros apart). *)
Theorem min_max_order_independent (vs vs' : list double) :
  vs ≡ₚ vs' ->
  Z.of_nat (length vs) <= capacity ->
  no_nan vs = true ->
  let r := compute (ring vs) in
  let r' := compute (ring vs') in
  st_count r = st_count r' /\
  PrimFloat.eqb (st_min r) (st_min r') = true /\
  PrimFloat.eqb (st_max r) (st_max r') = true.
Proof.
  intros Hperm HN Hnan. cbv zeta.
  assert (length vs' = length vs) as Hlen by (symmetry; apply Permutation_length, Hperm).
  assert (no_nan vs' = true) as Hnan'.
  { unfold no_nan in *. rewrite forallb_forall in *. intros x Hx.
    apply Hnan. apply list_elem_of_In. rewrite Hperm. apply list_elem_of_In, Hx. }
  split; [rewrite !st_count_pushes, Hlen; reflexivity | ].
  destruct vs as [ | v vs0].
  { apply Permutation_nil_l in Hperm. subst vs'. split; reflexivity. }
  destruct vs' as [ | v' vs0']; [discriminate | ].
  rewrite !(compute_stats_pushes capacity capacity_pos capacity_int).
  rewrite !(slot0_first capacity capacity_pos capacity_int) by lia.
  replace (length (v :: vs0) - Z.to_nat capacity)%nat with 0%nat by lia.
  replace (length (v' :: vs0') - Z.to_nat capacity)%nat with 0%nat by lia.
  rewrite !drop_0.
  rewrite !window_aggregate_fields by discriminate.
  cbn [st_min st_max hd].
  destruct (scan_least_greatest (v :: vs0) v (list_elem_of_here _ _) Hnan)
    as [[Hmin_in Hmin] [Hmax_in Hmax]].
  destruct (scan_least_greatest (v' :: vs0') v' (list_elem_of_here _ _) Hnan')
    as [[Hmin_in' Hmin'] [Hmax_in' Hmax']].
  split; apply eqb_rank.
  - apply Hmin. rewrite Hperm. exact Hmin_in'.
  - apply Hmin'. rewrite <- Hperm. exact Hmin_in.
  - apply Hmax'. rewrite <- Hperm. exact Hmax_in.
  - apply Hmax. rewrite Hperm. exact Hmax_in'.
Qed.

End RingMore.

(** X1 after 1026 pushes into the 1024 slots. *)
Lemma ring_after_pushes_witness :
  let vs := (1 :: 2 :: replicate 1024 3)%float in
  0 < MAX_SAMPLES /\ 2 * MAX_SAMPLES <= 2 ^ 31 /\
  let b := pushes MAX_SAMPLES vs in
  head b = Z.of_nat (length vs) mod MAX_SAMPLES /\
  count b = Z.min (Z.of_nat (length vs)) MAX_SAMPLES /\
  length (samples b) = Z.to_nat MAX_SAMPLES /\
  window MAX_SAMPLES b = drop (length vs - Z.to_nat MAX_SAMPLES) vs /\
  length (window MAX_SAMPLES b) = Nat.min (length vs) (Z.to_nat MAX_SAMPLES).
Proof.
  intros vs.
  assert (0 < MAX_SAMPLES) as Hpos by reflexivity.
  assert (2 * MAX_SAMPLES <= 2 ^ 31) as Hint by (vm_compute; discriminate).
  split; [exact Hpos | ]. split; [exact Hint | ].
  exact (ring_after_pushes MAX_SAMPLES Hpos Hint vs).
Defined.

(** X2 on a full window of three slots: the push of 4 drops the 1. *)
Lemma push_slides_window_witness :
  let b := pushes 3 [1; 2; 3]%float in
  reachable 3 b /\
  window 3 (buffer_push 3 b 4%float)
  = (if count b <? 3 then window 3 b else tail (window 3 b)) ++ [4%float].
Proof.
  intros b.
  assert (0 < 3) as Hpos by reflexivity.
  assert (2 * 3 <= 2 ^ 31) as Hint by (vm_compute; discriminate).
  assert (reachable 3 b) as Hb by (apply reachable_pushes; eexists; reflexivity).
  split; [exact Hb | ].
  exact (push_slides_window 3 Hpos Hint b 4%float Hb).
Defined.

(** X3 on the 1024 slots after 1025 pushes. *)
Lemma ring_accesses_in_bounds_witness :
  let b := pushes MAX_SAMPLES (replicate 1025 20)%float in
  reachable MAX_SAMPLES b /\
  length (samples b) = Z.to_nat MAX_SAMPLES /\
  0 <= head b < MAX_SAMPLES /\
  0 <= count b <= MAX_SAMPLES /\
  is_Some (samples b !! Z.to_nat (head b)) /\
  is_Some (samples b !! 0%nat) /\
  int_add (head b) 1 = head b + 1 /\
  (count b < MAX_SAMPLES -> int_add (count b) 1 = count b + 1) /\
  (forall v : double,
     head (buffer_push MAX_SAMPLES b v) = (head b + 1) mod MAX_SAMPLES /\
     count (buffer_push MAX_SAMPLES b v) = Z.min (count b + 1) MAX_SAMPLES) /\
  (forall i : Z,
     0 <= i < count b ->
     int_add (head b) MAX_SAMPLES = head b + MAX_SAMPLES /\
     int_sub (head b + MAX_SAMPLES) (count b) = head b + MAX_SAMPLES - count b /\
     int_add (head b + MAX_SAMPLES - count b) i = head b + MAX_SAMPLES - count b + i /\
     int_add i 1 = i + 1 /\
     scan_index MAX_SAMPLES b i = (head b + MAX_SAMPLES - count b + i) mod MAX_SAMPLES /\
     0 <= scan_index MAX_SAMPLES b i < MAX_SAMPLES /\
     is_Some (samples b !! Z.to_nat (scan_index MAX_SAMPLES b i))).
Proof.
  intros b.
  assert (0 < MAX_SAMPLES) as Hpos by reflexivity.
  assert (2 * MAX_SAMPLES <= 2 ^ 31) as Hint by (vm_compute; discriminate).
  assert (reachable MAX_SAMPLES b) as Hb by (apply reachable_pushes; eexists; reflexivity).
  split; [exact Hb | ].
  exact (ring_accesses_in_bounds MAX_SAMPLES Hpos Hint b Hb).
Defined.

(** X4 for three readings pushed in two orders. *)
Lemma min_max_order_independent_witness :
  let vs := [25; 20; 30]%float in
  let vs' := [20; 30; 25]%float in
  vs ≡ₚ vs' /\ Z.of_nat (length vs) <= MAX_SAMPLES /\ no_nan vs = true /\
  let r := buffer_compute_stats MAX_SAMPLES (pushes MAX_SAMPLES vs) in
  let r' := buffer_compute_stats MAX_SAMPLES (pushes MAX_SAMPLES vs') in
  st_count r = st_count r' /\
  PrimFloat.eqb (st_min r) (st_min r') = true /\
  PrimFloat.eqb (st_max r) (st_max r') = true.
Proof.
  intros vs vs'.
  assert (0 < MAX_SAMPLES) as Hpos by reflexivity.
  assert (2 * MAX_SAMPLES <= 2 ^ 31) as Hint by (vm_compute; discriminate).
  assert (vs ≡ₚ vs') as Hperm by (apply (Permutation_cons_append [20; 30]%float 25%float)).
  assert (Z.of_nat (length vs) <= MAX_SAMPLES) as HN by (vm_compute; discriminate).
  assert (no_nan vs = true) as Hnan by (vm_compute; reflexivity).
  split; [exact Hperm | ]. split; [exact HN | ]. split; [exact Hnan | ].
  exact (min_max_order_independent MAX_SAMPLES Hpos Hint vs vs' Hperm HN Hnan).
Defined.

(** ** The server, over whole runs *)

Lemma received_snoc (tr : list action) (a : action) :
  received (tr ++ [a])
  = received tr ++ match a with Receive rcvid rmsg => [(rcvid, rmsg)] | _ => [] end.
Proof.
  induction tr as [ | b tr IH]; cbn [app received].
  - destruct a; reflexivity.
  - destruct b; rewrite IH; reflexivity.
Qed.

Lemma pushes_made_snoc (tr : list action) (a : action) :
  pushes_made (tr ++ [a]) = (pushes_made tr + if is_push a then 1 else 0)%nat.
Proof.
  unfold pushes_made. rewrite List.filter_app, length_app. cbn.
  destruct (is_push a); reflexivity.
Qed.

Lemma replies_made_snoc (tr : list action) (a : action) :
  replies_made (tr ++ [a]) = (replies_made tr + if is_reply a then 1 else 0)%nat.
Proof.
  unfold replies_made. rewrite List.filter_app, length_app. cbn.
  destruct (is_reply a); reflexivity.
Qed.

Lemma take_last_snoc {A : Type} (l : list A) (x : A) (n : nat) :
  last l = Some x -> S n = length l -> take (S n) l = take n l ++ [x].
Proof.
  intros Hlast Hn. apply last_Some in Hlast as [l0 ->].
  rewrite length_app in Hn. cbn in Hn.
  rewrite take_ge by (rewrite length_app; cbn; lia).
  rewrite take_app_le by lia. rewrite take_ge by lia. reflexivity.
Qed.

Lemma served (t0 : Z) (tr : list action) (s : server) :
  run tr (server_start t0) = Some s -> served_inv tr s.
Proof.
  revert s. induction tr as [ | a tr IH] using rev_ind; intros s Hrun.
  - injection Hrun as <-. repeat split.
  - apply run_snoc in Hrun as (s1 & Hrun & Hs).
    destruct (IH s1 Hrun) as (Hbuf & Hout & Hpc). clear IH Hrun.
    unfold served_inv.
    rewrite received_snoc, pushes_made_snoc, replies_made_snoc.
    step_cases a s1 Hs;
      unfold emit, set_listener, set_timer;
      cbn [out listener buffer is_push is_reply];
      rewrite ?List.filter_app, ?app_nil_r, ?Nat.add_0_r;
      cbn [List.filter is_reply_out];
      rewrite ?app_nil_r;
      repeat match goal with
             | H : listener _ = _ |- _ => rewrite H in *
             end.
    all: try contradiction.
    all: try (split; [exact Hbuf | split; [exact Hout | exact Hpc]]).
    (* a request comes in *)
    1-3: destruct Hpc as [Hnp Hnr];
      rewrite !take_app_le by lia; rewrite last_snoc, length_app; cbn [length];
      (split; [exact Hbuf | split; [exact Hout | split; [reflexivity | lia]]]).
    (* it is pushed *)
    1-3: destruct Hpc as (Hlast & Hnp & Hnr);
      replace (pushes_made tr + 1)%nat with (S (pushes_made tr)) by lia;
      rewrite (take_last_snoc _ _ _ Hlast Hnp);
      unfold temps; rewrite map_app; cbn [map snd];
      rewrite pushes_snoc, Hbuf;
      (split; [reflexivity | split; [exact Hout | split; [exact Hlast | lia]]]).
    (* it is answered *)
    1-3: destruct Hpc as (Hlast & Hnp & Hnr);
      replace (replies_made tr + 1)%nat with (S (replies_made tr)) by lia;
      rewrite (take_last_snoc _ _ _ Hlast Hnr);
      unfold replies; rewrite map_app; cbn [map fst snd];
      unfold replies in Hout; rewrite Hout;
      (split; [exact Hbuf | split; [ | lia]]);
      unfold reply_of, snprintf; reflexivity.
Qed.

Lemma served_bound (tr : list action) (s : server) :
  served_inv tr s -> (pushes_made tr <= length (received tr))%nat.
Proof.
  intros (_ & _ & Hpc). destruct (listener s); intuition lia.
Qed.

Lemma published (t0 : Z) (tr : list action) (s : server) :
  run tr (server_start t0) = Some s -> snapshot_inv tr s.
Proof.
  revert s. induction tr as [ | a tr IH] using rev_ind; intros s Hrun.
  - injection Hrun as <-. split; [exists 0%nat; split; [lia | reflexivity] | exact I].
  - apply run_snoc in Hrun as (s1 & Hrun & Hs).
    destruct (IH s1 Hrun) as ((k & Hk & Hshm) & Htimer).
    pose proof (served t0 tr s1 Hrun) as Hserved.
    pose proof (served_bound tr s1 Hserved) as Hbound.
    destruct Hserved as (Hbuf & _ & _). clear IH Hrun.
    unfold snapshot_inv.
    rewrite received_snoc, pushes_made_snoc.
    assert (forall (j : nat) (x : list (Z * temp_msg_t)),
              (j <= pushes_made tr)%nat ->
              take j (received tr ++ x) = take j (received tr)) as Htake
      by (intros j x Hj; apply take_app_le; lia).
    step_cases a s1 Hs;
      unfold emit, set_listener, set_timer;
      cbn [shm_stats timer buffer is_push Shm.numeric Shm.avg Shm.minimum Shm.maximum
           Shm.count];
      rewrite ?app_nil_r, ?Nat.add_0_r;
      repeat match goal with
             | H : timer _ = _ |- _ => rewrite H in *
             end.
    all: try (split; [exists k; split; [lia | rewrite ?Htake by lia; exact Hshm] | ]).
    all: try exact I.
    all: try (destruct Htimer as (k' & Hk' & Hl); exists k'; split;
              [lia | rewrite ?Htake by lia; exact Hl]).
    (* the timer reads the window: it holds all the pushes made *)
    1-5: exists (pushes_made tr); split; [lia | rewrite Hbuf; reflexivity].
    (* the timer publishes what it read *)
    all: destruct Htimer as (k' & Hk' & ->);
      (split; [exists k'; split; [lia | reflexivity] | exact I]).
Qed.

(** Nothing is stamped with a time to come, and the clock does not go
    back. *)
Lemma stamped (t0 : Z) (tr : list action) (s : server) :
  run tr (server_start t0) = Some s ->
  t0 <= Shm.last_updated (shm_stats s) <= clock s.
Proof.
  revert s. induction tr as [ | a tr IH] using rev_ind; intros s Hrun.
  - injection Hrun as <-. cbn. lia.
  - apply run_snoc in Hrun as (s1 & Hrun & Hs).
    specialize (IH s1 Hrun).
    step_cases a s1 Hs; cbn;
      repeat match goal with
             | H : (_ <=? _) = true |- _ => apply Z.leb_le in H
             end; lia.
Qed.

Lemma cadence_step (c : Z) (a : action) (s s' : server) :
  cadence_inv c s -> is_write a = false -> step a s = Some s' -> cadence_inv c s'.
Proof.
  intros (Hc & Ht) Hq Hs. unfold cadence_inv, PERIOD_SECONDS in *.
  step_cases a s Hs; cbn in *; try discriminate;
    repeat match goal with
           | H : timer s = _ |- _ => rewrite H in *
           | H : (_ <=? _) = true |- _ => apply Z.leb_le in H
           end;
    try (split; first [assumption | lia]).
Qed.

(** X5. Requests are served one at a time and in arrival order. After any
    run, the window is the result of pushing the temperatures of the
    requests received, in the order they came, up to the pushes made; the
    replies sent are the acknowledgments of the first requests, each with
    its own receive id and text, in that order; and at most one request is
    waiting for its push or its reply. The scan of the window therefore
    reads the last 1024 temperatures pushed. *)
Theorem requests_served_in_order (t0 : Z) (tr : list action) (s : server) :
  run tr (server_start t0) = Some s ->
  let pushed := temps (take (pushes_made tr) (received tr)) in
  buffer s = pushes MAX_SAMPLES pushed /\
  List.filter is_reply_out (out s) = replies (take (replies_made tr) (received tr)) /\
  (replies_made tr <= pushes_made tr <= length (received tr))%nat /\
  (length (received tr) <= S (replies_made tr))%nat /\
  window MAX_SAMPLES (buffer s) = drop (length pushed - Z.to_nat MAX_SAMPLES) pushed.
Proof.
  intros Hrun. cbv zeta.
  destruct (served t0 tr s Hrun) as (Hbuf & Hout & Hpc).
  split; [exact Hbuf | ]. split; [exact Hout | ].
  split; [destruct (listener s); intuition lia | ].
  split; [destruct (listener s); intuition lia | ].
  rewrite Hbuf. apply window_pushes; [reflexivity | vm_compute; discriminate].
Qed.

Lemma requests_served_in_order_witness :
  let m1 := mk_temp_msg 1 7 22.5 in
  let m2 := mk_temp_msg 1 9 30 in
  let tr := [Receive 4 m1; ListenerPush; TimerWake; ListenerTouch; ListenerReply;
             Receive 5 m2; ListenerPush] in
  let s := default (server_start 1000) (run (Tick 5 :: tr) (server_start 1000)) in
  run (Tick 5 :: tr) (server_start 1000) = Some s /\
  let pushed := temps (take (pushes_made (Tick 5 :: tr)) (received (Tick 5 :: tr))) in
  buffer s = pushes MAX_SAMPLES pushed /\
  List.filter is_reply_out (out s)
  = replies (take (replies_made (Tick 5 :: tr)) (received (Tick 5 :: tr))) /\
  (replies_made (Tick 5 :: tr) <= pushes_made (Tick 5 :: tr)
   <= length (received (Tick 5 :: tr)))%nat /\
  (length (received (Tick 5 :: tr)) <= S (replies_made (Tick 5 :: tr)))%nat /\
  window MAX_SAMPLES (buffer s) = drop (length pushed - Z.to_nat MAX_SAMPLES) pushed.
Proof.
  intros m1 m2 tr s.
  assert (run (Tick 5 :: tr) (server_start 1000) = Some s) as Hrun
    by (vm_compute; reflexivity).
  split; [exact Hrun | ].
  exact (requests_served_in_order 1000 (Tick 5 :: tr) s Hrun).
Defined.

(** X6. What a reader finds in shared memory is never a mixture: after any
    run the four published numbers are together the aggregate of the
    window as it was after some number [k] of the pushes made so far (the
    initial zeros being the aggregate of the empty window), and the
    published count is [min k 1024]. *)
Theorem published_is_a_past_aggregate (t0 : Z) (tr : list action) (s : server) :
  run tr (server_start t0) = Some s ->
  exists k : nat,
    (k <= pushes_made tr)%nat /\
    Shm.numeric (shm_stats s)
    = numeric_of (buffer_compute_stats MAX_SAMPLES
                    (pushes MAX_SAMPLES (temps (take k (received tr))))) /\
    Shm.count (shm_stats s) = Z.min (Z.of_nat k) MAX_SAMPLES /\
    0 <= Shm.count (shm_stats s) <= MAX_SAMPLES.
Proof.
  intros Hrun.
  destruct (published t0 tr s Hrun) as ((k & Hk & Hshm) & _).
  pose proof (served_bound tr s (served t0 tr s Hrun)) as Hbound.
  exists k. split; [exact Hk | ]. split; [exact Hshm | ].
  assert (Shm.count (shm_stats s) = Z.min (Z.of_nat k) MAX_SAMPLES) as Hcount.
  { unfold Shm.numeric, numeric_of in Hshm. injection Hshm as _ _ _ ->.
    rewrite st_count_pushes by (try reflexivity; vm_compute; discriminate).
    unfold temps. rewrite length_map, length_take. f_equal. lia. }
  split; [exact Hcount | ]. rewrite Hcount. unfold MAX_SAMPLES. lia.
Qed.

Lemma published_is_a_past_aggregate_witness :
  let m1 := mk_temp_msg 1 7 22.5 in
  let tr := [Tick 5; TimerWake; TimerCompute; Receive 4 m1; ListenerPush; TimerWrite] in
  let s := default (server_start 1000) (run tr (server_start 1000)) in
  run tr (server_start 1000) = Some s /\
  exists k : nat,
    (k <= pushes_made tr)%nat /\
    Shm.numeric (shm_stats s)
    = numeric_of (buffer_compute_stats MAX_SAMPLES
                    (pushes MAX_SAMPLES (temps (take k (received tr))))) /\
    Shm.count (shm_stats s) = Z.min (Z.of_nat k) MAX_SAMPLES /\
    0 <= Shm.count (shm_stats s) <= MAX_SAMPLES.
Proof.
  intros m1 tr s.
  assert (run tr (server_start 1000) = Some s) as Hrun by (vm_compute; reflexivity).
  split; [exact Hrun | ].
  exact (published_is_a_past_aggregate 1000 tr s Hrun).
Defined.

(** X7. The two writers of [last_updated] never take it back: over every
    step of every run the published timestamp does not decrease, it is
    never ahead of the clock, and it is never before the start. *)
Theorem last_updated_never_goes_back
  (t0 : Z) (tr : list action) (s s' : server) (a : action) :
  run tr (server_start t0) = Some s ->
  step a s = Some s' ->
  t0 <= Shm.last_updated (shm_stats s) /\
  Shm.last_updated (shm_stats s) <= Shm.last_updated (shm_stats s') /\
  Shm.last_updated (shm_stats s') <= clock s'.
Proof.
  intros Hrun Hs.
  pose proof (stamped t0 tr s Hrun) as H1.
  assert (run (tr ++ [a]) (server_start t0) = Some s') as Hrun'
    by (apply run_snoc; exists s; split; assumption).
  pose proof (stamped t0 (tr ++ [a]) s' Hrun') as H2.
  split; [lia | ]. split; [ | lia].
  step_cases a s Hs; cbn; lia.
Qed.

Lemma last_updated_never_goes_back_witness :
  let tr := [Tick 5; TimerWake; TimerCompute; TimerWrite; Tick 2;
             Receive 4 (mk_temp_msg 1 7 22.5); ListenerPush] in
  let s := default (server_start 1000) (run tr (server_start 1000)) in
  let s' := default s (step ListenerTouch s) in
  run tr (server_start 1000) = Some s /\
  step ListenerTouch s = Some s' /\
  1000 <= Shm.last_updated (shm_stats s) /\
  Shm.last_updated (shm_stats s) <= Shm.last_updated (shm_stats s') /\
  Shm.last_updated (shm_stats s') <= clock s'.
Proof.
  intros tr s s'.
  assert (run tr (server_start 1000) = Some s) as Hrun by (vm_compute; reflexivity).
  assert (step ListenerTouch s = Some s') as Hs by (vm_compute; reflexivity).
  split; [exact Hrun | ]. split; [exact Hs | ].
  exact (last_updated_never_goes_back 1000 tr s s' ListenerTouch Hrun Hs).
Defined.

(** X8. Two publications in a row are a period apart at least, whatever
    the listener does in between: the timestamp written by the second is
    no less than the one written by the first plus [PERIOD_SECONDS]. *)
Theorem publications_a_period_apart (s0 s1 s2 : server) (tr : list action) :
  step TimerWrite s0 = Some s1 ->
  run (tr ++ [TimerWrite]) s1 = Some s2 ->
  forallb (fun a => negb (is_write a)) tr = true ->
  Shm.last_updated (shm_stats s1) = clock s1 /\
  Shm.last_updated (shm_stats s2) = clock s2 /\
  clock s1 + PERIOD_SECONDS <= clock s2.
Proof.
  intros Hw1 Hrun Hnw.
  apply step_write_inv in Hw1 as (l1 & Hl1 & ->).
  apply run_snoc in Hrun as (sc & Hrun & Hw2).
  apply step_write_inv in Hw2 as (l2 & Hl2 & ->).
  match type of Hrun with run tr ?st = _ => set (s1 := st) in * end.
  assert (cadence_inv (clock s0) sc) as [Hc Ht].
  { eapply (run_preserves (cadence_inv (clock s0)) (fun a => negb (is_write a)));
      [ | exact Hnw | | exact Hrun].
    - intros a s s' Hinv Ha. apply cadence_step; [exact Hinv | ].
      destruct (is_write a); [discriminate | reflexivity].
    - unfold cadence_inv, s1. cbn [clock timer]. split; [lia | reflexivity]. }
  rewrite Hl2 in Ht. unfold s1. cbn [shm_stats clock Shm.last_updated].
  split; [reflexivity | ]. split; [reflexivity | exact Ht].
Qed.

Lemma publications_a_period_apart_witness :
  let s0 := mk_server (pushes MAX_SAMPLES [20; 25; 30]%float) (Shm.mk 0 0 0 0 1000)
              1005 L_receive
              (T_write (buffer_compute_stats MAX_SAMPLES
                          (pushes MAX_SAMPLES [20; 25; 30]%float))) [] in
  let tr := [Receive 4 (mk_temp_msg 1 7 35); ListenerPush; Tick 6; ListenerTouch;
             TimerWake; ListenerReply; TimerCompute] in
  let s1 := default s0 (step TimerWrite s0) in
  let s2 := default s1 (run (tr ++ [TimerWrite]) s1) in
  step TimerWrite s0 = Some s1 /\
  run (tr ++ [TimerWrite]) s1 = Some s2 /\
  forallb (fun a => negb (is_write a)) tr = true /\
  Shm.last_updated (shm_stats s1) = clock s1 /\
  Shm.last_updated (shm_stats s2) = clock s2 /\
  clock s1 + PERIOD_SECONDS <= clock s2.
Proof.
  intros s0 tr s1 s2.
  assert (step TimerWrite s0 = Some s1) as H1 by (vm_compute; reflexivity).
  assert (run (tr ++ [TimerWrite]) s1 = Some s2) as H2 by (vm_compute; reflexivity).
  assert (forallb (fun a => negb (is_write a)) tr = true) as H3 by reflexivity.
  split; [exact H1 | ]. split; [exact H2 | ]. split; [exact H3 | ].
  exact (publications_a_period_apart s0 s1 s2 tr H1 H2 H3).
Defined.

(** ** The length of the reply *)

Lemma length_append (s t : string) :
  String.length (s ++ t) = (String.length s + String.length t)%nat.
Proof. induction s as [ | c s IH]; cbn [append String.length]; [reflexivity | rewrite IH; reflexivity]. Qed.

Lemma string_of_uint_length (d : Decimal.uint) :
  String.length (NilEmpty.string_of_uint d) = Decimal.nb_digits d.
Proof. induction d; cbn [NilEmpty.string_of_uint String.length Decimal.nb_digits]; congruence. Qed.

Lemma usize_nb_digits (d : Decimal.uint) :
  DecimalPos.Unsigned.usize d = N.of_nat (Decimal.nb_digits d).
Proof.
  induction d; cbn [DecimalPos.Unsigned.usize Decimal.nb_digits];
    rewrite ?IHd; lia.
Qed.

Lemma nb_digits_nzhead (d : Decimal.uint) :
  (Decimal.nb_digits (Decimal.nzhead d) <= Decimal.nb_digits d)%nat.
Proof. induction d; cbn [Decimal.nzhead Decimal.nb_digits]; lia. Qed.

(** The decimal numeral of [p] has no leading zero, so a [p] below [10^k]
    has at most [k] digits. *)
Lemma to_uint_digits (p : positive) (k : nat) :
  (N.pos p < 10 ^ N.of_nat k)%N -> (Decimal.nb_digits (Pos.to_uint p) <= k)%nat.
Proof.
  intros Hp.
  pose proof (DecimalPos.Unsigned.of_to p) as Hof.
  pose proof (DecimalPos.Unsigned.to_of (Pos.to_uint p)) as Hto.
  rewrite Hof in Hto. cbn [N.to_uint] in Hto.
  rewrite DecimalPos.Unsigned.of_uint_alt in Hof.
  pose proof (DecimalPos.Unsigned.to_uint_nonzero p) as Hnz.
  destruct (Pos.to_uint p) as [ | d | d | d | d | d | d | d | d | d | d ].
  1: cbn; lia.
  1: { exfalso. unfold Decimal.unorm in Hto. cbn [Decimal.nzhead] in Hto.
       pose proof (nb_digits_nzhead d) as Hle.
       destruct (Decimal.nzhead d) eqn:Hd;
         try (rewrite <- Hto in Hle; cbn [Decimal.nb_digits] in Hle; lia).
       injection Hto as ->. apply Hnz. reflexivity. }
  all: unfold Decimal.rev in Hof; cbn [Decimal.revapp] in Hof;
    rewrite DecimalPos.Unsigned.of_lu_revapp in Hof;
    cbn [DecimalPos.Unsigned.of_lu] in Hof;
    rewrite usize_nb_digits in Hof; cbn [Decimal.nb_digits];
    assert (10 ^ N.of_nat (Decimal.nb_digits d) < 10 ^ N.of_nat k)%N as Hpow by lia;
    apply N.pow_lt_mono_r_iff in Hpow; lia.
Qed.

(** [%d] of a number below [10^k] in magnitude prints at most [k] digits,
    and a sign when it is negative. *)
Lemma fmt_d_length (z : Z) (k : nat) :
  (1 <= k)%nat -> Z.abs z < 10 ^ Z.of_nat k ->
  (String.length (fmt_d z) <= k + (if (z <? 0)%Z then 1 else 0))%nat.
Proof.
  intros Hk Hz. unfold fmt_d.
  assert (forall p, Z.pos p < 10 ^ Z.of_nat k ->
            (String.length (NilZero.string_of_uint (Pos.to_uint p)) <= k)%nat) as Hpos.
  { intros p Hp. unfold NilZero.string_of_uint.
    assert (String.length (NilEmpty.string_of_uint (Pos.to_uint p)) <= k)%nat as Hlen.
    { rewrite string_of_uint_length. apply to_uint_digits.
      apply N2Z.inj_lt. rewrite N2Z.inj_pow, nat_N_Z. exact Hp. }
    destruct (Pos.to_uint p); [cbn; lia | exact Hlen ..]. }
  destruct z as [ | p | p]; cbn [Z.to_int NilZero.string_of_int String.length Z.ltb Z.compare].
  - cbn. lia.
  - specialize (Hpos p Hz). lia.
  - specialize (Hpos p Hz). lia.
Qed.

Lemma digits2_pos_bound (m : positive) : Z.pos m < 2 ^ Z.pos (digits2_pos m).
Proof.
  induction m as [m IH | m IH | ]; cbn [digits2_pos].
  - rewrite Pos2Z.inj_succ, Z.pow_succ_r by lia. lia.
  - rewrite Pos2Z.inj_succ, Z.pow_succ_r by lia. lia.
  - reflexivity.
Qed.

(** The mantissa of a double has at most 53 bits. *)
Lemma finite_mantissa (x : double) (s : bool) (m : positive) (e : Z) :
  Prim2SF x = S754_finite s m e -> Z.pos m < 2 ^ 53.
Proof.
  intros Hx. pose proof (FloatAxioms.Prim2SF_valid x) as Hvalid.
  rewrite Hx in Hvalid. unfold valid_binary, bounded, canonical_mantissa, fexp in Hvalid.
  apply andb_true_iff in Hvalid as [Hcanon _]. apply Z.eqb_eq in Hcanon.
  unfold FloatOps.prec in Hcanon.
  pose proof (digits2_pos_bound m) as Hm.
  assert (2 ^ Z.pos (digits2_pos m) <= 2 ^ 53) by (apply Z.pow_le_mono_r; lia).
  lia.
Qed.

Lemma round_half_even_bounds (num den : Z) :
  0 <= num -> 0 < den -> 0 <= round_half_even num den <= num + 1.
Proof.
  intros Hnum Hden. unfold round_half_even.
  assert (0 <= num / den) by (apply Z.div_pos; lia).
  assert (num / den <= num) by (apply Z.div_le_upper_bound; nia).
  destruct (2 * (num mod den) ?= den); [destruct (Z.even (num / den)) | | ]; lia.
Qed.

(** A double of binary exponent at most 233 is below [10^87]: its integer
    part has at most 87 digits. *)
Lemma scaled3_bound (m : positive) (e : Z) :
  Z.pos m < 2 ^ 53 -> e <= 233 ->
  0 <= scaled3 m e /\ scaled3 m e / 1000 < 10 ^ 87.
Proof.
  intros Hm He. unfold scaled3. destruct (Z.leb_spec 0 e) as [Hpos | Hneg].
  - assert (0 < 2 ^ e) by (apply Z.pow_pos_nonneg; lia).
    assert (2 ^ e <= 2 ^ 233) as Hpow by (apply Z.pow_le_mono_r; lia).
    split; [nia | ]. rewrite Z.div_mul by discriminate.
    apply Z.lt_le_trans with (2 ^ 53 * 2 ^ 233); [ | vm_compute; discriminate].
    apply Z.le_lt_trans with (Z.pos m * 2 ^ 233).
    + apply Z.mul_le_mono_nonneg_l; lia.
    + apply Z.mul_lt_mono_pos_r; [reflexivity | exact Hm].
  - assert (0 < 2 ^ (- e)) by (apply Z.pow_pos_nonneg; lia).
    destruct (round_half_even_bounds (Z.pos m * 1000) (2 ^ (- e))) as [Hlo Hhi]; [lia .. | ].
    split; [exact Hlo | ].
    apply Z.lt_le_trans with (2 ^ 53); [ | vm_compute; discriminate].
    apply Z.div_lt_upper_bound; lia.
Qed.

Lemma pad3_length (n : Z) : 0 <= n < 1000 -> (String.length (pad3 n) <= 3)%nat.
Proof.
  intros Hn. unfold pad3. rewrite !length_append.
  assert (0 <= n / 100 < 10) as Hhundreds
    by (split; [apply Z.div_pos | apply Z.div_lt_upper_bound]; lia).
  pose proof (Z.mod_pos_bound (n / 10) 10 eq_refl) as Htens.
  pose proof (Z.mod_pos_bound n 10 eq_refl) as Hunits.
  pose proof (fmt_d_length (n / 100) 1 (le_n 1)) as H1.
  pose proof (fmt_d_length (n / 10 mod 10) 1 (le_n 1)) as H2.
  pose proof (fmt_d_length (n mod 10) 1 (le_n 1)) as H3.
  change (10 ^ Z.of_nat 1) with 10 in *.
  destruct (Z.ltb_spec (n / 100) 0), (Z.ltb_spec (n / 10 mod 10) 0),
    (Z.ltb_spec (n mod 10) 0); lia.
Qed.

Lemma fmt_fixed3_length (neg : bool) (n : Z) (k : nat) :
  (1 <= k)%nat -> 0 <= n -> n / 1000 < 10 ^ Z.of_nat k ->
  (String.length (fmt_fixed3 neg n) <= k + 5)%nat.
Proof.
  intros Hk Hn Hint. unfold fmt_fixed3. rewrite !length_append.
  assert (0 <= n / 1000) as Hq by (apply Z.div_pos; lia).
  pose proof (fmt_d_length (n / 1000) k Hk) as Hd.
  destruct (Z.ltb_spec (n / 1000) 0); [lia | ].
  pose proof (pad3_length (n mod 1000) (Z.mod_pos_bound n 1000 eq_refl)).
  assert (String.length (if neg then "-" else "") <= 1)%nat by (destruct neg; cbn; lia).
  change (String.length ".") with 1%nat. lia.
Qed.

(** [%.3f] of a double of magnitude at most [1e86] takes at most 92
    characters: a sign, 87 digits, the point and three decimals. *)
Lemma fmt_f3_length (x : double) :
  PrimFloat.leb (PrimFloat.abs x) 1e86 = true -> (String.length (fmt_f3 x) <= 92)%nat.
Proof.
  intros Hx. rewrite FloatAxioms.leb_spec, FloatAxioms.abs_spec in Hx.
  replace (Prim2SF 1e86) with (S754_finite false 7244543263061370 233) in Hx
    by (vm_compute; reflexivity).
  unfold fmt_f3. pose proof (finite_mantissa x) as Hm.
  destruct (Prim2SF x) as [s | s | | s m e].
  - destruct s; vm_compute; lia.
  - destruct s; vm_compute; lia.
  - vm_compute; lia.
  - specialize (Hm s m e eq_refl).
    assert (e <= 233) as He.
    { unfold SFleb in Hx. cbn [SFabs SFcompare] in Hx.
      destruct (Z.compare_spec e 233); [lia | lia | discriminate]. }
    destruct (scaled3_bound m e Hm He) as [Hlo Hhi].
    apply (fmt_fixed3_length s (scaled3 m e) 87); [lia | exact Hlo | exact Hhi].
Qed.

(** The acknowledgment of a reading of magnitude at most [1e86] from a
    32-bit process id is shorter than [reply_msg]. *)
Lemma ack_text_length (t : double) (p : Z) :
  PrimFloat.leb (PrimFloat.abs t) 1e86 = true -> INT_MIN <= p <= INT_MAX ->
  (String.length (ack_text t p) < REPLY_SIZE)%nat.
Proof.
  intros Ht Hp. unfold ack_text, REPLY_SIZE. rewrite !length_append.
  pose proof (fmt_f3_length t Ht) as Hf.
  pose proof (fmt_d_length p 10 ltac:(lia)) as Hd.
  assert (Z.abs p < 10 ^ Z.of_nat 10) as Habs
    by (unfold INT_MIN, INT_MAX in Hp; change (10 ^ Z.of_nat 10) with 10000000000; lia).
  specialize (Hd Habs).
  assert ((if (p <? 0)%Z then 1 else 0) <= 1)%nat by (destruct (p <? 0); lia).
  change (String.length "ACK: received ") with 14%nat.
  change (String.length " from pid ") with 10%nat. lia.
Qed.

Lemma substring_prefix (n : nat) (text : string) :
  exists rest : string, text = (substring 0 n text ++ rest)%string.
Proof.
  revert n. induction text as [ | c text IH]; intros n.
  - exists EmptyString. destruct n; reflexivity.
  - destruct n as [ | n]; cbn [substring append].
    + eexists. reflexivity.
    + destruct (IH n) as [rest Hrest]. exists rest. congruence.
Qed.

Lemma substring_min_length (n : nat) (text : string) :
  String.length (substring 0 n text) = Nat.min (String.length text) n.
Proof.
  revert n. induction text as [ | c text IH]; intros n; destruct n;
    cbn [substring String.length]; rewrite ?IH; lia.
Qed.

(** A text shorter than [reply_msg] is stored whole, and [MsgReply] is
    given its length and the NUL. *)
Lemma reply_of_short_text (rcvid : Z) (rmsg : temp_msg_t) :
  let text := ack_text (temp rmsg) (pid rmsg) in
  (String.length text < REPLY_SIZE)%nat ->
  reply_of rcvid rmsg = MsgReply rcvid EOK text (Z.of_nat (String.length text) + 1).
Proof.
  cbv zeta. intros Hfit. unfold reply_of, snprintf. unfold REPLY_SIZE in *.
  rewrite substring_all by lia.
  rewrite int_add_id by (unfold INT_MIN, INT_MAX; lia).
  reflexivity.
Qed.

(** X9. The write into [reply_msg] never leaves the array, whatever the
    request: what [snprintf] stores is the text cut to its first 127
    characters at most, all of them ASCII, so with its NUL it takes at most
    128 bytes; and it is the whole text exactly when the text is shorter
    than 128 characters. *)
Theorem reply_write_stays_in_buffer (rcvid : Z) (rmsg : temp_msg_t) :
  let text := ack_text (temp rmsg) (pid rmsg) in
  let stored := reply_text (reply_of rcvid rmsg) in
  String.length stored = Nat.min (String.length text) (REPLY_SIZE - 1) /\
  (String.length stored + 1 <= REPLY_SIZE)%nat /\
  (exists rest : string, text = (stored ++ rest)%string) /\
  all_ascii7 stored = true /\
  (stored = text <-> (String.length text < REPLY_SIZE)%nat).
Proof.
  cbv zeta. unfold reply_of, snprintf. cbn [reply_text].
  pose proof (substring_min_length (REPLY_SIZE - 1) (ack_text (temp rmsg) (pid rmsg))) as Hlen.
  destruct (substring_prefix (REPLY_SIZE - 1) (ack_text (temp rmsg) (pid rmsg)))
    as [rest Hrest].
  split; [exact Hlen | ].
  split; [rewrite Hlen; unfold REPLY_SIZE; lia | ].
  split; [exists rest; exact Hrest | ].
  split.
  - pose proof (ack_text_ascii (temp rmsg) (pid rmsg)) as Hascii.
    rewrite Hrest, all_ascii7_app in Hascii.
    apply andb_true_iff in Hascii as [Hascii _]. exact Hascii.
  - split.
    + intros Heq. rewrite Heq in Hlen. unfold REPLY_SIZE in *. lia.
    + intros Hfit. apply substring_all. unfold REPLY_SIZE in *. lia.
Qed.

(** X10. A reading of magnitude at most [1e86] sent by a process whose id
    is an [int] is acknowledged in full: the text has fewer than 128
    characters, [reply_msg] holds all of it, and [MsgReply] is given its
    length and the NUL, within the 128 bytes of the array. *)
Theorem moderate_reading_acknowledged_in_full (rcvid : Z) (rmsg : temp_msg_t) :
  PrimFloat.leb (PrimFloat.abs (temp rmsg)) 1e86 = true ->
  INT_MIN <= pid rmsg <= INT_MAX ->
  let text := ack_text (temp rmsg) (pid rmsg) in
  (String.length text < REPLY_SIZE)%nat /\
  reply_of rcvid rmsg = MsgReply rcvid EOK text (Z.of_nat (String.length text) + 1) /\
  0 < reply_nbytes (reply_of rcvid rmsg) <= Z.of_nat REPLY_SIZE.
Proof.
  intros Htemp Hpid. cbv zeta.
  pose proof (ack_text_length (temp rmsg) (pid rmsg) Htemp Hpid) as Hfit.
  pose proof (reply_of_short_text rcvid rmsg Hfit) as Hreply.
  split; [exact Hfit | ]. split; [exact Hreply | ].
  rewrite Hreply. cbn [reply_nbytes]. lia.
Qed.

Lemma moderate_reading_acknowledged_in_full_witness :
  let rmsg := mk_temp_msg 1 7 (-273.15) in
  PrimFloat.leb (PrimFloat.abs (temp rmsg)) 1e86 = true /\
  INT_MIN <= pid rmsg <= INT_MAX /\
  let text := ack_text (temp rmsg) (pid rmsg) in
  (String.length text < REPLY_SIZE)%nat /\
  reply_of 4 rmsg = MsgReply 4 EOK text (Z.of_nat (String.length text) + 1) /\
  0 < reply_nbytes (reply_of 4 rmsg) <= Z.of_nat REPLY_SIZE.
Proof.
  intros rmsg.
  assert (PrimFloat.leb (PrimFloat.abs (temp rmsg)) 1e86 = true) as Htemp
    by (vm_compute; reflexivity).
  assert (INT_MIN <= pid rmsg <= INT_MAX) as Hpid
    by (vm_compute; split; discriminate).
  split; [exact Htemp | ]. split; [exact Hpid | ].
  exact (moderate_reading_acknowledged_in_full 4 rmsg Htemp Hpid).
Defined.

(** ** The client and the server together *)

Lemma upto_all (n : nat) (z k : Z) : z <= k < z + Z.of_nat n -> In k (upto n z).
Proof.
  revert z. induction n as [ | n IH]; intros z Hk; [lia | ]. cbn [upto].
  destruct (Z.eq_dec z k) as [-> | Hne]; [left; reflexivity | right; apply IH; lia].
Qed.

Lemma rand_values_all (rand : Z) : 0 <= rand <= RAND_MAX -> In rand rand_values.
Proof. intros Hrand. apply upto_all. unfold RAND_MAX in *. lia. Qed.

Lemma readings_ok : forallb reading_ok rand_values = true.
Proof. vm_compute. reflexivity. Qed.

(** X11. Every request the client can build is acknowledged in full. For
    every value of [rand()] the reading lies between 15 and 40 degrees, the
    ends included, and prints with two digits before the point; for every
    process id the acknowledgment has at most 41 characters, so the server
    stores all of it and gives [MsgReply] its length and the NUL, far
    inside the 128 bytes of [reply_msg] and of the client's [rbuf]. *)
Theorem client_request_acknowledged_in_full (getpid rand rcvid : Z) :
  0 <= rand <= RAND_MAX ->
  INT_MIN <= getpid <= INT_MAX ->
  let msg := client_msg getpid rand in
  let text := ack_text (temp msg) (pid msg) in
  PrimFloat.leb 15 (temp msg) = true /\
  PrimFloat.leb (temp msg) 40 = true /\
  (String.length text <= 41)%nat /\
  reply_of rcvid msg = MsgReply rcvid EOK text (Z.of_nat (String.length text) + 1) /\
  reply_nbytes (reply_of rcvid msg) <= 42.
Proof.
  intros Hrand Hpid. cbv zeta. cbn [client_msg temp pid].
  pose proof readings_ok as Hall. rewrite forallb_forall in Hall.
  specialize (Hall rand (rand_values_all rand Hrand)). unfold reading_ok in Hall.
  apply andb_true_iff in Hall as [Hall Hlen]. apply andb_true_iff in Hall as [Hlo Hhi].
  apply Nat.eqb_eq in Hlen.
  assert (String.length (ack_text (reading rand) getpid) <= 41)%nat as Htext.
  { unfold ack_text. rewrite !length_append, Hlen.
    pose proof (fmt_d_length getpid 10 ltac:(lia)) as Hd.
    assert (Z.abs getpid < 10 ^ Z.of_nat 10) as Habs
      by (unfold INT_MIN, INT_MAX in Hpid; change (10 ^ Z.of_nat 10) with 10000000000; lia).
    specialize (Hd Habs).
    assert ((if (getpid <? 0)%Z then 1 else 0) <= 1)%nat by (destruct (getpid <? 0); lia).
    change (String.length "ACK: received ") with 14%nat.
    change (String.length " from pid ") with 10%nat. lia. }
  pose proof (reply_of_short_text rcvid (client_msg getpid rand)) as Hreply.
  cbv zeta in Hreply. cbn [client_msg temp pid] in Hreply.
  specialize (Hreply ltac:(unfold REPLY_SIZE; lia)).
  split; [exact Hlo | ]. split; [exact Hhi | ]. split; [exact Htext | ].
  split; [exact Hreply | ]. rewrite Hreply. cbn [reply_nbytes]. lia.
Qed.

Lemma client_request_acknowledged_in_full_witness :
  0 <= 16384 <= RAND_MAX /\ INT_MIN <= 4242 <= INT_MAX /\
  let msg := client_msg 4242 16384 in
  let text := ack_text (temp msg) (pid msg) in
  PrimFloat.leb 15 (temp msg) = true /\
  PrimFloat.leb (temp msg) 40 = true /\
  (String.length text <= 41)%nat /\
  reply_of 4 msg = MsgReply 4 EOK text (Z.of_nat (String.length text) + 1) /\
  reply_nbytes (reply_of 4 msg) <= 42.
Proof.
  assert (0 <= 16384 <= RAND_MAX) as Hrand by (vm_compute; split; discriminate).
  assert (INT_MIN <= 4242 <= INT_MAX) as Hpid by (vm_compute; split; discriminate).
  split; [exact Hrand | ]. split; [exact Hpid | ].
  exact (client_request_acknowledged_in_full 4242 16384 4 Hrand Hpid).
Defined.

(** ** The published count *)

Lemma window_count (t0 : Z) (tr : list action) (s : server) :
  run tr (server_start t0) = Some s ->
  count (buffer s) = Z.min (Z.of_nat (pushes_made tr)) MAX_SAMPLES /\
  st_count (buffer_compute_stats MAX_SAMPLES (buffer s))
  = Z.min (Z.of_nat (pushes_made tr)) MAX_SAMPLES.
Proof.
  intros Hrun. pose proof (served t0 tr s Hrun) as Hserved.
  pose proof (served_bound tr s Hserved) as Hbound.
  destruct Hserved as (Hbuf & _ & _). rewrite Hbuf.
  assert (length (temps (take (pushes_made tr) (received tr))) = pushes_made tr) as Hlen
    by (unfold temps; rewrite length_map, length_take; lia).
  split.
  - destruct (pushes_inv MAX_SAMPLES eq_refl ltac:(vm_compute; discriminate)
                (temps (take (pushes_made tr) (received tr)))) as [_ _ Hcount _].
    rewrite Hcount, Hlen. reflexivity.
  - rewrite st_count_pushes by (try reflexivity; vm_compute; discriminate).
    rewrite Hlen. reflexivity.
Qed.

Lemma lagging (t0 : Z) (tr : list action) (s : server) :
  run tr (server_start t0) = Some s -> lag_inv tr s.
Proof.
  revert s. induction tr as [ | a tr IH] using rev_ind; intros s Hrun.
  - injection Hrun as <-. exists 0%nat. repeat split. cbn. lia.
  - apply run_snoc in Hrun as (s1 & Hrun & Hs).
    destruct (IH s1 Hrun) as (k & Hk & Hshm & Htimer).
    destruct (window_count t0 tr s1 Hrun) as [_ Hcompute]. clear IH Hrun.
    unfold lag_inv. rewrite pushes_made_snoc.
    step_cases a s1 Hs;
      unfold emit, set_listener, set_timer;
      cbn [shm_stats timer buffer is_push Shm.count];
      rewrite ?Nat.add_0_r;
      repeat match goal with
             | H : timer _ = _ |- _ => rewrite H in *
             end.
    all: try (exists k; split; [lia | split; [exact Hshm | ]]; first
              [ exact I
              | destruct Htimer as (k' & Hk' & Hl); exists k'; split; [lia | exact Hl]
              | exists (pushes_made tr); split; [lia | exact Hcompute] ]).
    (* the timer publishes what it read *)
    all: destruct Htimer as (k' & Hk' & Hl); exists k';
      (split; [lia | split; [exact Hl | exact I]]).
Qed.

Lemma count_step (t0 : Z) (tr : list action) (a : action) (s s' : server) :
  run tr (server_start t0) = Some s -> step a s = Some s' ->
  Shm.count (shm_stats s) <= Shm.count (shm_stats s').
Proof.
  intros Hrun Hs. destruct (lagging t0 tr s Hrun) as (k & Hk & Hshm & Htimer).
  step_cases a s Hs; unfold emit, set_listener, set_timer; cbn [shm_stats Shm.count];
    try lia.
  all: repeat match goal with
              | H : timer _ = _ |- _ => rewrite H in *
              end.
  all: destruct Htimer as (k' & Hk' & Hl); rewrite Hshm, Hl; lia.
Qed.

(** X13. The published count never goes down, and it lags behind the
    window, never ahead of it: over any further run of a running server
    the count in shared memory does not decrease, it is at most the count
    of the window, and the count of the window is the number of pushes
    made, capped at 1024. *)
Theorem published_count_never_decreases
  (t0 : Z) (tr tr' : list action) (s s' : server) :
  run tr (server_start t0) = Some s ->
  run tr' s = Some s' ->
  0 <= Shm.count (shm_stats s) <= Shm.count (shm_stats s') /\
  Shm.count (shm_stats s') <= count (buffer s') /\
  count (buffer s') = Z.min (Z.of_nat (pushes_made (tr ++ tr'))) MAX_SAMPLES.
Proof.
  intros Hrun. revert s'. induction tr' as [ | a tr' IH] using rev_ind; intros s' Hrun'.
  - injection Hrun' as <-. rewrite app_nil_r.
    destruct (lagging t0 tr s Hrun) as (k & Hk & Hshm & _).
    destruct (window_count t0 tr s Hrun) as [Hcount _].
    rewrite Hshm, Hcount. unfold MAX_SAMPLES. lia.
  - apply run_snoc in Hrun' as (s1 & Hrun1 & Hs).
    destruct (IH s1 Hrun1) as (Hle & _ & _).
    assert (run (tr ++ tr') (server_start t0) = Some s1) as Hall
      by (rewrite run_app, Hrun; exact Hrun1).
    pose proof (count_step t0 (tr ++ tr') a s1 s' Hall Hs) as Hstep.
    assert (run (tr ++ tr' ++ [a]) (server_start t0) = Some s') as Hall'.
    { rewrite app_assoc. apply run_snoc. exists s1. split; [exact Hall | exact Hs]. }
    destruct (lagging t0 _ s' Hall') as (k & Hk & Hshm & _).
    destruct (window_count t0 _ s' Hall') as [Hcount _].
    split; [lia | ]. rewrite Hcount. split; [ | reflexivity].
    rewrite Hshm. unfold MAX_SAMPLES. lia.
Qed.

Lemma published_count_never_decreases_witness :
  let m1 := mk_temp_msg 1 7 22.5 in
  let tr := [Receive 4 m1; ListenerPush; Tick 5; TimerWake; TimerCompute; TimerWrite] in
  let tr' := [ListenerTouch; ListenerReply; Receive 5 m1; ListenerPush; Tick 5; TimerWake;
              TimerCompute; TimerWrite] in
  let s := default (server_start 1000) (run tr (server_start 1000)) in
  let s' := default (server_start 1000) (run tr' s) in
  run tr (server_start 1000) = Some s /\
  run tr' s = Some s' /\
  0 <= Shm.count (shm_stats s) <= Shm.count (shm_stats s') /\
  Shm.count (shm_stats s') <= count (buffer s') /\
  count (buffer s') = Z.min (Z.of_nat (pushes_made (tr ++ tr'))) MAX_SAMPLES.
Proof.
  intros m1 tr tr' s s'.
  assert (run tr (server_start 1000) = Some s) as Hrun by (vm_compute; reflexivity).
  assert (run tr' s = Some s') as Hrun' by (vm_compute; reflexivity).
  split; [exact Hrun | ]. split; [exact Hrun' | ].
  exact (published_count_never_decreases 1000 tr tr' s s' Hrun Hrun').
Defined.
